(** * wdk-wallet: the abstract wallet manager and the fiat/swap protocol layer

    A shallow embedding of [WalletManager] (wallet-manager.js), of the abstract
    [FiatProtocol] (protocols/fiat-protocol.js), of the option types declared for
    the fiat and swap protocols, and of the BIP-39 primitive the seed-phrase
    utilities delegate to.

    JavaScript strings are lists of UTF-16 code units, thrown values are an
    error result, and methods that read or write [this] or the objects it
    refers to are computations over an explicit world (the manager and the
    object store). *)

From stdpp Require Import gmap strings list fin_maps.
From Stdlib Require Import NArith.
From Stdlib.Strings Require Import Byte.

Local Open Scope N_scope.
Local Open Scope nat_scope.

(* ===================================================================== *)
(** * Part I: definitions                                                 *)
(* ===================================================================== *)

(** ** JavaScript values, strings and thrown errors *)

(** A string is its sequence of UTF-16 code units. *)
Abbreviation jsstring := (list N) (only parsing).

(** A string literal of the source. *)
Definition lit (s : string) : jsstring :=
  map Ascii.N_of_ascii (String.list_ascii_of_string s).

(** What the modelled code throws. [NotImplementedError] is the class imported
    from errors.js, built from the name of the method; [TypeError] is the
    engine's error for calling or reading through a non-object, also thrown by
    the mnemonic primitive; [Error] is a plain [new Error(message)]. *)
Inductive exn : Type :=
| NotImplementedError (method : string)
| TypeError (message : string)
| Error (message : string).

(** The result of a call: a returned value or a thrown error. For an [async]
    method, [Ok] is the value of the fulfilled promise and [Throw] the reason
    of the rejected one. *)
Inductive result (A : Type) : Type :=
| Ok (a : A)
| Throw (e : exn).
Arguments Ok {A} a.
Arguments Throw {A} e.

(** The error taxonomy of the specification, used to state which error an
    operation fails with. [RuntimeError] stands for an error of the engine
    that is none of the named ones. *)
Inductive ErrorKind : Type :=
| NotImplemented
| InvalidArgument
| InvalidDerivationPath
| InvalidAmountSpecification
| SignerNotFound
| SignerDisposed
| Disposed
| RuntimeError.

Definition kind_of (e : exn) : ErrorKind :=
  match e with
  | NotImplementedError _ => NotImplemented
  | TypeError _ => RuntimeError
  | Error _ => RuntimeError
  end.

Definition fails_with {A} (r : result A) (k : ErrorKind) : Prop :=
  ∃ e, r = Throw e ∧ kind_of e = k.

Definition succeeds {A} (r : result A) : Prop := ∃ a, r = Ok a.

(** Object references. *)
Abbreviation loc := nat (only parsing).

(** The values stored in the registries: a reference to a signer or account
    object, or [undefined]. Two references are the same instance exactly when
    they are equal. *)
Inductive value : Type :=
| VUndefined
| VRef (l : loc).

Global Instance value_eq_dec : EqDecision value.
Proof. solve_decision. Defined.

(** A signer or account object in the store: the truthiness of its optional
    [isActive] field and the number of times its [dispose()] has run. *)
Record entity : Type := Entity {
  isActive : bool;
  disposeCalls : nat
}.

(** Modelled from the spec: the body of [ISigner.dispose()] /
    [IWalletAccount.dispose()], which only concrete chains implement; the
    specification says [isActive] is false once disposed. *)
Definition entity_dispose (e : entity) : entity :=
  {| isActive := false; disposeCalls := S (disposeCalls e) |}.

(** A registry field of the manager holds either a [Map] or an object
    literal. *)
Inductive registry : Type :=
| JsMap (entries : gmap (list N) value)
| JsObject (props : list (list N * value)).

(** [Object.values(o)]: the values of the own enumerable string-keyed
    properties of [o]. The entries of a [Map] are not properties of the map
    object, so a [Map] has none. *)
Definition Object_values (o : registry) : list value :=
  match o with
  | JsMap _ => []
  | JsObject props => map snd props
  end.

(** [o.get(key)]: [Map.prototype.get] on a map; an object literal holding
    only signers or [undefined] has no callable [get]. *)
Definition registry_get (field : string) (o : registry) (key : list N)
  : result value :=
  match o with
  | JsMap entries => Ok (default VUndefined (entries !! key))
  | JsObject _ => Throw (TypeError (String.append field ".get is not a function"))
  end.

(** ** The BIP-39 mnemonic primitive

    wallet-manager.js delegates its two seed-phrase utilities to the [bip39]
    package, an external collaborator whose code is not part of the
    repository. The specification fixes only that phrases are BIP-39
    mnemonics, of 12 words in the reference configuration, and that an
    external BIP-39 validator decides validity. The module below models that
    primitive by the algorithm of BIP-39 as the package implements it
    ([generateMnemonic], [entropyToMnemonic], [mnemonicToEntropy],
    [validateMnemonic]); the word list, SHA-256, Unicode normalisation and the
    random byte source stay parameters. *)

Global Instance result_ret : MRet result := λ A a, Ok a.
Global Instance result_bind : MBind result := λ A B f r,
  match r with
  | Ok a => f a
  | Throw e => Throw e
  end.

Module Bip39.

(** [str.split(sep)] for a one-character separator. *)
Fixpoint split (sep : N) (str : list N) : list (list N) :=
  match str with
  | [] => [[]]
  | c :: rest =>
      if decide (c = sep) then [] :: split sep rest
      else match split sep rest with
           | word :: words => (c :: word) :: words
           | [] => [[c]]
           end
  end.

(** [words.join(sep)] *)
Fixpoint join (sep : list N) (words : list (list N)) : list N :=
  match words with
  | [] => []
  | [word] => word
  | word :: rest => word ++ sep ++ join sep rest
  end.

(** [array.indexOf(x)], with [None] for -1. *)
Fixpoint indexOf (array : list (list N)) (x : list N) : option nat :=
  match array with
  | [] => None
  | y :: rest => if decide (y = x) then Some 0 else S <$> indexOf rest x
  end.

(** [array.map(f)] for a callback that may throw. *)
Fixpoint map_throwing {A B} (f : A → result B) (array : list A)
  : result (list B) :=
  match array with
  | [] => Ok []
  | x :: rest => y ← f x; ys ← map_throwing f rest; mret (y :: ys)
  end.

(** [n.toString(2)] for a non-negative integer. *)
Fixpoint pos_toString2 (p : positive) : list N :=
  match p with
  | xH => [49%N]
  | xO q => pos_toString2 q ++ [48%N]
  | xI q => pos_toString2 q ++ [49%N]
  end.

Definition toString2 (n : N) : list N :=
  match n with
  | N0 => [48%N]
  | Npos p => pos_toString2 p
  end.

(** The value of a binary digit. *)
Definition digit2 (c : N) : option N :=
  if decide (c = 48%N) then Some 0%N
  else if decide (c = 49%N) then Some 1%N
  else None.

(** [parseInt(str, 2)] reads the longest prefix of binary digits; [None] is
    [NaN]. The strings parsed here are slices of bit strings, so leading
    white space and signs are left out. *)
Fixpoint parse_digits2 (acc : N) (str : list N) : N :=
  match str with
  | [] => acc
  | c :: rest =>
      match digit2 c with
      | Some d => parse_digits2 (2 * acc + d)%N rest
      | None => acc
      end
  end.

Definition parseInt2 (str : list N) : option N :=
  match str with
  | [] => None
  | c :: _ =>
      match digit2 c with
      | Some _ => Some (parse_digits2 0%N str)
      | None => None
      end
  end.

(** [str.match(/(.{1,n})/g)]: the string cut into pieces of [n] characters,
    the last one shorter when the length is not a multiple of [n]; [None] is
    the [null] returned for the empty string. The strings matched here are
    bit strings, so [.] matches every character. *)
Fixpoint pieces (fuel n : nat) (str : list N) : list (list N) :=
  match fuel with
  | 0 => []
  | S fuel' =>
      match str with
      | [] => []
      | _ => take n str :: pieces fuel' n (drop n str)
      end
  end.

Definition match_pieces (n : nat) (str : list N) : option (list (list N)) :=
  match str with
  | [] => None
  | _ => Some (pieces (length str) n str)
  end.

(** [buffer.toString('hex')] *)
Definition hex_digit (d : N) : N :=
  if (d <? 10)%N then (48 + d)%N else (87 + d)%N.

Definition toString_hex (buffer : list byte) : list N :=
  concat (map (λ b, [hex_digit (Byte.to_N b / 16); hex_digit (Byte.to_N b mod 16)])
              buffer).

(** [Buffer.from(array)] for an array of numbers: each is reduced to a byte,
    [NaN] to 0. *)
Definition Buffer_from (array : list (option N)) : list byte :=
  map (λ x, default "000"%byte (Byte.of_N (default 0%N x mod 256))) array.

Definition INVALID_MNEMONIC : string := "Invalid mnemonic".
Definition INVALID_ENTROPY : string := "Invalid entropy".
Definition INVALID_CHECKSUM : string := "Invalid mnemonic checksum".

(** The first word of the Japanese word list and the ideographic space
    that joins Japanese phrases. *)
Definition japanese_first_word : list N :=
  [0x3042; 0x3044; 0x3053; 0x304f; 0x3057; 0x3093]%N.
Definition ideographic_space : list N := [0x3000%N].

Section Collaborators.

(** The default word list, SHA-256, Unicode NFKD normalisation
    ([String.prototype.normalize]) and the random byte source. *)
Variable wordlist : list (list N).
Variable sha256 : list byte → list byte.
Variable NFKD : list N → list N.
Variable randomBytes : nat → list byte.

(** [normalize(str)]: [(str || '').normalize('NFKD')] *)
Definition normalize (str : list N) : list N := NFKD str.

(** [lpad(str, padString, length)]: the loop
    [while (str.length < length) str = padString + str], which runs at most
    [length] times for a non-empty [padString]. *)
Fixpoint lpad_loop (fuel : nat) (str padString : list N) (len : nat) : list N :=
  match fuel with
  | 0 => str
  | S fuel' =>
      if length str <? len
      then lpad_loop fuel' (padString ++ str) padString len
      else str
  end.

Definition lpad (str padString : list N) (len : nat) : list N :=
  lpad_loop len str padString len.

(** [binaryToByte(bin)] *)
Definition binaryToByte (bin : list N) : option N := parseInt2 bin.

(** [bytesToBinary(bytes)] *)
Definition bytesToBinary (bytes : list N) : list N :=
  concat (map (λ x, lpad (toString2 x) (lit "0") 8) bytes).

(** [deriveChecksumBits(entropyBuffer)] *)
Definition deriveChecksumBits (entropyBuffer : list byte) : list N :=
  let ENT := length entropyBuffer * 8 in
  let CS := ENT / 32 in
  let hash := sha256 entropyBuffer in
  take CS (bytesToBinary (map Byte.to_N hash)).

(** Modelled from the spec: [bip39.mnemonicToEntropy(mnemonic)] with the
    default word list, the decoder behind the BIP-39 validator. *)
Definition mnemonicToEntropy (mnemonic : list N) : result (list N) :=
  let words := split 32%N (normalize mnemonic) in
  if negb (length words mod 3 =? 0) then Throw (Error INVALID_MNEMONIC) else
  chunks ← map_throwing (λ word,
              match indexOf wordlist word with
              | None => Throw (Error INVALID_MNEMONIC)
              | Some index => Ok (lpad (toString2 (N.of_nat index)) (lit "0") 11)
              end) words;
  let bits := concat chunks in
  let dividerIndex := length bits / 33 * 32 in
  let entropyBits := take dividerIndex bits in
  let checksumBits := drop dividerIndex bits in
  match match_pieces 8 entropyBits with
  | None => Throw (TypeError "Cannot read properties of null (reading 'map')")
  | Some matched =>
      let entropyBytes := map binaryToByte matched in
      if length entropyBytes <? 16 then Throw (Error INVALID_ENTROPY) else
      if 32 <? length entropyBytes then Throw (Error INVALID_ENTROPY) else
      if negb (length entropyBytes mod 4 =? 0) then Throw (Error INVALID_ENTROPY) else
      let entropy := Buffer_from entropyBytes in
      let newChecksum := deriveChecksumBits entropy in
      if negb (bool_decide (newChecksum = checksumBits))
      then Throw (Error INVALID_CHECKSUM)
      else Ok (toString_hex entropy)
  end.

(** The callback of [chunks.map] in [entropyToMnemonic]:
    [wordlist[binaryToByte(binary)]]. A word looked up out of range or at
    [NaN] is [undefined], which [join] prints as the empty string. *)
Definition word_at (binary : list N) : list N :=
  match binaryToByte binary with
  | Some index => default [] (wordlist !! N.to_nat index)
  | None => []
  end.

(** Modelled from the spec: [bip39.entropyToMnemonic(entropy)] for a buffer,
    with the default word list, the BIP-39 encoder. *)
Definition entropyToMnemonic (entropy : list byte) : result (list N) :=
  if length entropy <? 16 then Throw (TypeError INVALID_ENTROPY) else
  if 32 <? length entropy then Throw (TypeError INVALID_ENTROPY) else
  if negb (length entropy mod 4 =? 0) then Throw (TypeError INVALID_ENTROPY) else
  let entropyBits := bytesToBinary (map Byte.to_N entropy) in
  let checksumBits := deriveChecksumBits entropy in
  let bits := entropyBits ++ checksumBits in
  match match_pieces 11 bits with
  | None => Throw (TypeError "Cannot read properties of null (reading 'map')")
  | Some chunks =>
      let words := map word_at chunks in
      Ok (if bool_decide (wordlist !! 0 = Some japanese_first_word)
          then join ideographic_space words
          else join (lit " ") words)
  end.

(** Modelled from the spec: [bip39.generateMnemonic(strength)] with the
    default random source and word list, the BIP-39 generator;
    [strength || 128] also replaces a zero strength, and 128 bits of entropy
    make the 12 words of the reference configuration. *)
Definition generateMnemonic (strength : option nat) : result (list N) :=
  let strength := match strength with
                  | Some (S n) => S n
                  | _ => 128
                  end in
  if negb (strength mod 32 =? 0) then Throw (TypeError INVALID_ENTROPY) else
  entropyToMnemonic (randomBytes (strength / 8)).

(** Modelled from the spec: [bip39.validateMnemonic(mnemonic)], the external
    BIP-39 validator: the [try]/[catch] around [mnemonicToEntropy]. *)
Definition validateMnemonic (mnemonic : list N) : bool :=
  match mnemonicToEntropy mnemonic with
  | Ok _ => true
  | Throw _ => false
  end.

(** A phrase is well formed when, once normalised and split at spaces, it has
    12, 15, 18, 21 or 24 words, all of them in the word list. *)
Definition well_formed (mnemonic : list N) : bool :=
  let words := split 32%N (normalize mnemonic) in
  (length words mod 3 =? 0) && (12 <=? length words) && (length words <=? 24)
  && forallb (λ word, bool_decide (word ∈ wordlist)) words.

End Collaborators.
End Bip39.

(** A binary digit, as a character. *)
Definition is_bit (c : N) : Prop := c = 48%N ∨ c = 49%N.

(** ** SHA-256

    The hash the mnemonic primitive takes its checksum from (FIPS 180-4), for
    the examples that run the primitive on the published BIP-39 vectors. *)

Module SHA256.
Local Open Scope N_scope.

(** Arithmetic on 32-bit words. *)
Definition add32 (x y : N) : N := (x + y) mod 2 ^ 32.
Definition rotr (n x : N) : N :=
  N.lor (N.shiftr x n) (N.shiftl x (32 - n) mod 2 ^ 32).
Definition not32 (x : N) : N := N.lxor x 0xffffffff.
Definition Ch (x y z : N) : N := N.lxor (N.land x y) (N.land (not32 x) z).
Definition Maj (x y z : N) : N :=
  N.lxor (N.land x y) (N.lxor (N.land x z) (N.land y z)).
Definition Sigma0 (x : N) : N := N.lxor (rotr 2 x) (N.lxor (rotr 13 x) (rotr 22 x)).
Definition Sigma1 (x : N) : N := N.lxor (rotr 6 x) (N.lxor (rotr 11 x) (rotr 25 x)).
Definition sigma0 (x : N) : N := N.lxor (rotr 7 x) (N.lxor (rotr 18 x) (N.shiftr x 3)).
Definition sigma1 (x : N) : N := N.lxor (rotr 17 x) (N.lxor (rotr 19 x) (N.shiftr x 10)).

(** The round constants and the initial hash value. *)
Definition K : list N :=
  [1116352408; 1899447441; 3049323471; 3921009573;
   961987163; 1508970993; 2453635748; 2870763221;
   3624381080; 310598401; 607225278; 1426881987;
   1925078388; 2162078206; 2614888103; 3248222580;
   3835390401; 4022224774; 264347078; 604807628;
   770255983; 1249150122; 1555081692; 1996064986;
   2554220882; 2821834349; 2952996808; 3210313671;
   3336571891; 3584528711; 113926993; 338241895;
   666307205; 773529912; 1294757372; 1396182291;
   1695183700; 1986661051; 2177026350; 2456956037;
   2730485921; 2820302411; 3259730800; 3345764771;
   3516065817; 3600352804; 4094571909; 275423344;
   430227734; 506948616; 659060556; 883997877;
   958139571; 1322822218; 1537002063; 1747873779;
   1955562222; 2024104815; 2227730452; 2361852424;
   2428436474; 2756734187; 3204031479; 3329325298].

(** The eight working variables. *)
Record state : Type := State { a : N; b : N; c : N; d : N; e : N; f : N; g : N; h : N }.

Definition H0 : state :=
  State 1779033703 3144134277 1013904242 2773480762
        1359893119 2600822924 528734635 1541459225.

(** One round of the compression function. *)
Definition round (s : state) (kw : N * N) : state :=
  let T1 := add32 (add32 (add32 (h s) (Sigma1 (e s))) (add32 (Ch (e s) (f s) (g s)) kw.1)) kw.2 in
  let T2 := add32 (Sigma0 (a s)) (Maj (a s) (b s) (c s)) in
  State (add32 T1 T2) (a s) (b s) (c s) (add32 (d s) T1) (e s) (f s) (g s).

(** Big-endian words. *)
Fixpoint words_of_bytes (bytes : list N) : list N :=
  match bytes with
  | b0 :: b1 :: b2 :: b3 :: rest =>
      (((b0 * 256 + b1) * 256 + b2) * 256 + b3) :: words_of_bytes rest
  | _ => []
  end.

Definition bytes_of_word (w : N) : list N :=
  [w / 2 ^ 24 mod 256; w / 2 ^ 16 mod 256; w / 2 ^ 8 mod 256; w mod 256].

(** The message schedule: [n] more words after the ones in [w]. *)
Fixpoint schedule (n : nat) (w : list N) : list N :=
  match n with
  | O => w
  | S n' =>
      let t := length w in
      let at_ i := default 0 (w !! (t - i)%nat) in
      schedule n' (w ++ [add32 (add32 (sigma1 (at_ 2%nat)) (at_ 7%nat))
                               (add32 (sigma0 (at_ 15%nat)) (at_ 16%nat))])
  end.

(** The compression of one 64-byte block. *)
Definition compress (s : state) (block : list N) : state :=
  let W := schedule 48 (words_of_bytes block) in
  let s' := foldl round s (zip K W) in
  State (add32 (a s) (a s')) (add32 (b s) (b s')) (add32 (c s) (c s'))
        (add32 (d s) (d s')) (add32 (e s) (e s')) (add32 (f s) (f s'))
        (add32 (g s) (g s')) (add32 (h s) (h s')).

(** Padding: a one bit, zeros, and the bit length on eight bytes. *)
Definition pad (message : list N) : list N :=
  let l := length message in
  let zeros := ((64 - (l + 9) mod 64) mod 64)%nat in
  message ++ [0x80] ++ replicate zeros 0
  ++ bytes_of_word (N.of_nat (8 * l) / 2 ^ 32) ++ bytes_of_word (N.of_nat (8 * l) mod 2 ^ 32).

Fixpoint blocks (fuel : nat) (bytes : list N) : list (list N) :=
  match fuel with
  | O => []
  | S fuel' =>
      match bytes with
      | [] => []
      | _ => take 64 bytes :: blocks fuel' (drop 64 bytes)
      end
  end.

Definition to_byte (n : N) : byte := default "000"%byte (Byte.of_N n).

(** The digest of a message. *)
Definition sha256 (message : list byte) : list byte :=
  let padded := pad (map Byte.to_N message) in
  let s := foldl compress H0 (blocks (length padded) padded) in
  map to_byte
    (bytes_of_word (a s) ++ bytes_of_word (b s) ++ bytes_of_word (c s)
     ++ bytes_of_word (d s) ++ bytes_of_word (e s) ++ bytes_of_word (f s)
     ++ bytes_of_word (g s) ++ bytes_of_word (h s)).

End SHA256.

(** ** The wallet manager (wallet-manager.js) *)

Module WalletManager.
Section WithConfig.

(** The [WalletConfig] type is declared in another module of the package;
    [{ }] is the empty object literal of that type. *)
Variable WalletConfig : Type.
Variable empty_object : WalletConfig.

Record t : Type := Manager {
  _signers : registry;
  _accounts : registry;
  _config : WalletConfig
}.

(** The manager together with the store of the objects it refers to. *)
Record world : Type := World {
  this : t;
  heap : gmap nat entity
}.

(** A method: it runs in a world, returns or throws, and leaves a world. *)
Definition M (A : Type) : Type := world → result A * world.

Global Instance M_ret : MRet M := λ A a w, (Ok a, w).
Global Instance M_bind : MBind M := λ A B f m w,
  match m w with
  | (Ok a, w') => f a w'
  | (Throw e, w') => (Throw e, w')
  end.

Definition throw {A} (e : exn) : M A := λ w, (Throw e, w).
Definition read {A} (f : t → A) : M A := λ w, (Ok (f (this w)), w).
Definition lift {A} (r : result A) : M A := λ w, (r, w).

Definition set_signers (r : registry) : M unit := λ w,
  (Ok (), World (Manager r (_accounts (this w)) (_config (this w))) (heap w)).
Definition set_accounts (r : registry) : M unit := λ w,
  (Ok (), World (Manager (_signers (this w)) r (_config (this w))) (heap w)).

(** [for (const x of xs) body(x)] *)
Fixpoint for_of (xs : list value) (body : value → M unit) : M unit :=
  match xs with
  | [] => mret ()
  | x :: xs' => body x ;; for_of xs' body
  end.

(** [if (x.isActive) { x.dispose() }] *)
Definition dispose_if_active (x : value) : M unit := λ w,
  match x with
  | VUndefined =>
      (Throw (TypeError "Cannot read properties of undefined (reading 'isActive')"), w)
  | VRef l =>
      match heap w !! l with
      | Some e =>
          if isActive e
          then (Ok (), World (this w) (<[l := entity_dispose e]> (heap w)))
          else (Ok (), w)
      | None => (Ok (), w)
      end
  end.

(** [constructor (signer, config = { })] *)
Definition constructor (signer : value) (config : option WalletConfig)
  : result t :=
  Ok {| _signers := JsMap (<[lit "default" := signer]> ∅);
        _accounts := JsMap ∅;
        _config := default empty_object config |}.

(** [createSigner (signerName, signer)] *)
Definition createSigner (signerName : list N) (signer : value) : M unit :=
  throw (NotImplementedError "createSigner(signerName, signer)").

(** [getSigner (signerName)] *)
Definition getSigner (signerName : list N) : M value :=
  signers ← read _signers;
  lift (registry_get "this._signers" signers signerName).

(** [async getAccount (index = 0, signerName = 'default')] *)
Definition getAccount (index : option N) (signerName : option (list N))
  : M value :=
  let index := default 0%N index in
  let signerName := default (lit "default") signerName in
  throw (NotImplementedError "getAccount(index)").

(** [async getAccountByPath (path, signerName = 'default')] *)
Definition getAccountByPath (path : list N) (signerName : option (list N))
  : M value :=
  let signerName := default (lit "default") signerName in
  throw (NotImplementedError "getAccountByPath(path)").

(** The [FeeRates] object. *)
Record FeeRates : Type := { normal : N; fast : N }.

(** [async getFeeRates ()] *)
Definition getFeeRates : M FeeRates :=
  throw (NotImplementedError "getFeeRates()").

(** [dispose ()] *)
Definition dispose : M unit :=
  signers ← read _signers;
  for_of (Object_values signers) dispose_if_active ;;
  accounts ← read _accounts;
  for_of (Object_values accounts) dispose_if_active ;;
  set_signers (JsObject []) ;;
  set_accounts (JsObject []).

(** The truthiness of [x.isActive] for a registered value. *)
Definition is_active (h : gmap nat entity) (x : value) : bool :=
  match x with
  | VUndefined => false
  | VRef l => from_option isActive false (h !! l)
  end.

End WithConfig.

Section SeedPhrases.

(** The collaborators of the mnemonic primitive. *)
Variable wordlist : list (list N).
Variable sha256 : list byte → list byte.
Variable NFKD : list N → list N.
Variable randomBytes : nat → list byte.

(** [static getRandomSeedPhrase ()] *)
Definition getRandomSeedPhrase : result (list N) :=
  Bip39.generateMnemonic wordlist sha256 randomBytes None.

(** [static isValidSeedPhrase (seedPhrase)] *)
Definition isValidSeedPhrase (seedPhrase : list N) : result bool :=
  Ok (Bip39.validateMnemonic wordlist sha256 NFKD seedPhrase).

End SeedPhrases.
End WalletManager.

(** ** The fiat protocol (protocols/fiat-protocol.js) and the swap options *)

Module FiatProtocol.
Section WithAmount.

(** The values of an amount field, [number | bigint]; the abstract layer
    never inspects one. *)
Variable amount : Type.

(** An options object as a call receives it: any of the declared fields
    may be missing ([None] is a missing or [undefined] property). *)
Record options : Type := Options {
  cryptoAsset : option (list N);
  fiatCurrency : option (list N);
  recipient : option (list N);
  refundAddress : option (list N);
  cryptoAmount : option amount;
  fiatAmount : option amount
}.

(** [BuyCommonOptions] and [SellCommonOptions]: the required fields. *)
Definition BuyCommonOptions (o : options) : bool :=
  bool_decide (is_Some (cryptoAsset o)) && bool_decide (is_Some (fiatCurrency o)).
Definition SellCommonOptions (o : options) : bool :=
  bool_decide (is_Some (cryptoAsset o)) && bool_decide (is_Some (fiatCurrency o)).

(** [BuyExactCryptoAmountOptions] / [SellExactCryptoAmountOptions]:
    [cryptoAmount] is a [number | bigint], [fiatAmount] is [never]. *)
Definition ExactCryptoAmountOptions (o : options) : bool :=
  bool_decide (is_Some (cryptoAmount o)) && bool_decide (fiatAmount o = None).

(** [BuyWithFiatAmountOptions] / [SellForFiatAmountOptions]:
    [fiatAmount] is a [number | bigint], [cryptoAmount] is [never]. *)
Definition FiatAmountOptions (o : options) : bool :=
  bool_decide (is_Some (fiatAmount o)) && bool_decide (cryptoAmount o = None).

(** [BuyCommonOptions & (BuyExactCryptoAmountOptions | BuyWithFiatAmountOptions)] *)
Definition BuyOptions (o : options) : bool :=
  BuyCommonOptions o && (ExactCryptoAmountOptions o || FiatAmountOptions o).

(** [SellCommonOptions & (SellExactCryptoAmountOptions | SellForFiatAmountOptions)] *)
Definition SellOptions (o : options) : bool :=
  SellCommonOptions o && (ExactCryptoAmountOptions o || FiatAmountOptions o).

(** The [FiatQuote] object. *)
Record FiatQuote : Type := {
  quote_cryptoAmount : Z;
  quote_fiatAmount : Z;
  quote_fee : Z;
  quote_rate : list N
}.

(** The protocol instance: [this._account]. *)
Record t : Type := Protocol { _account : value }.

(** [constructor (account = undefined)] *)
Definition constructor (account : option value) : t :=
  {| _account := default VUndefined account |}.

(** [async quoteBuy (options)] *)
Definition quoteBuy (this : t) (o : options) : result FiatQuote :=
  Throw (NotImplementedError "quoteBuy(options)").

(** [async buy (options)] *)
Definition buy (this : t) (o : options) : result (list N) :=
  Throw (NotImplementedError "buy(options)").

(** [async quoteSell (options)] *)
Definition quoteSell (this : t) (o : options) : result FiatQuote :=
  Throw (NotImplementedError "quoteSell(options)").

(** [async sell (options)] *)
Definition sell (this : t) (o : options) : result (list N) :=
  Throw (NotImplementedError "sell(options)").

End WithAmount.
End FiatProtocol.

Module SwapProtocol.
Section WithAmount.

Variable amount : Type.

(** A swap options object as a call receives it. *)
Record options : Type := Options {
  tokenIn : option (list N);
  tokenOut : option (list N);
  to : option (list N);
  tokenInAmount : option amount;
  tokenOutAmount : option amount
}.

Definition SwapCommonOptions (o : options) : bool :=
  bool_decide (is_Some (tokenIn o)) && bool_decide (is_Some (tokenOut o)).

(** [SwapBuyOptions]: [tokenOutAmount] is a [number | bigint],
    [tokenInAmount] is [never]. *)
Definition SwapBuyOptions (o : options) : bool :=
  bool_decide (is_Some (tokenOutAmount o)) && bool_decide (tokenInAmount o = None).

(** [SwapSellOptions]: [tokenInAmount] is a [number | bigint],
    [tokenOutAmount] is [never]. *)
Definition SwapSellOptions (o : options) : bool :=
  bool_decide (is_Some (tokenInAmount o)) && bool_decide (tokenOutAmount o = None).

(** [SwapCommonOptions & (SwapBuyOptions | SwapSellOptions)] *)
Definition SwapOptions (o : options) : bool :=
  SwapCommonOptions o && (SwapBuyOptions o || SwapSellOptions o).

End WithAmount.
End SwapProtocol.

(** How many of two optional amount fields are present. *)
Definition present {A} (x : option A) : nat :=
  match x with Some _ => 1 | None => 0 end.

(** ** Sequences of calls on a manager *)

(** [null] or a value. *)
Inductive nullable (A : Type) : Type :=
| Null
| NonNull (a : A).
Arguments Null {A}.
Arguments NonNull {A} a.

(** What one pass of the guard [if (x.isActive) x.dispose()] makes of an
    object. *)
Definition dispose_once (e : entity) : entity :=
  if isActive e then entity_dispose e else e.

(** The subclass of the test suite (tests/wallet-manager.test.js): it
    overrides the three abstract methods and [dispose], and inherits the
    constructor, [createSigner] and [getSigner]. *)
Module DummyWalletManager.
Section WithConfig.

Variable WalletConfig : Type.

(** [async getAccount (index = 0) { return null }] *)
Definition getAccount (index : option N)
  : WalletManager.M WalletConfig (nullable value) :=
  let index := default 0%N index in
  mret Null.

(** [async getAccountByPath (path) { return null }] *)
Definition getAccountByPath (path : list N)
  : WalletManager.M WalletConfig (nullable value) :=
  mret Null.

(** [async getFeeRates () { return { normal: 0, fast: 0 } }] *)
Definition getFeeRates : WalletManager.M WalletConfig WalletManager.FeeRates :=
  mret {| WalletManager.normal := 0%N; WalletManager.fast := 0%N |}.

(** [dispose () { }] *)
Definition dispose : WalletManager.M WalletConfig unit := mret ().

End WithConfig.
End DummyWalletManager.

Module Calls.
Section WithConfig.

Variable WalletConfig : Type.

(** A call of one of the manager's methods, with its arguments. *)
Inductive call : Type :=
| CreateSigner (signerName : list N) (signer : value)
| GetSigner (signerName : list N)
| GetAccount (index : option N) (signerName : option (list N))
| GetAccountByPath (path : list N) (signerName : option (list N))
| GetFeeRates
| Dispose.

Definition is_Dispose (c : call) : bool :=
  match c with
  | Dispose => true
  | _ => false
  end.

(** The world a call on the abstract manager leaves, whether it returns or
    throws. *)
Definition perform (c : call) (w : WalletManager.world WalletConfig)
  : WalletManager.world WalletConfig :=
  match c with
  | CreateSigner signerName signer =>
      (WalletManager.createSigner WalletConfig signerName signer w).2
  | GetSigner signerName => (WalletManager.getSigner WalletConfig signerName w).2
  | GetAccount index signerName =>
      (WalletManager.getAccount WalletConfig index signerName w).2
  | GetAccountByPath path signerName =>
      (WalletManager.getAccountByPath WalletConfig path signerName w).2
  | GetFeeRates => (WalletManager.getFeeRates WalletConfig w).2
  | Dispose => (WalletManager.dispose WalletConfig w).2
  end.

(** The same call on the subclass of the test suite, whose overrides take no
    signer name. *)
Definition perform_dummy (c : call) (w : WalletManager.world WalletConfig)
  : WalletManager.world WalletConfig :=
  match c with
  | CreateSigner signerName signer =>
      (WalletManager.createSigner WalletConfig signerName signer w).2
  | GetSigner signerName => (WalletManager.getSigner WalletConfig signerName w).2
  | GetAccount index _ => (DummyWalletManager.getAccount WalletConfig index w).2
  | GetAccountByPath path _ =>
      (DummyWalletManager.getAccountByPath WalletConfig path w).2
  | GetFeeRates => (DummyWalletManager.getFeeRates WalletConfig w).2
  | Dispose => (DummyWalletManager.dispose WalletConfig w).2
  end.

(** The calls of a list, one after the other. *)
Definition run (calls : list call) (w : WalletManager.world WalletConfig)
  : WalletManager.world WalletConfig :=
  foldl (λ w c, perform c w) w calls.

Definition run_dummy (calls : list call) (w : WalletManager.world WalletConfig)
  : WalletManager.world WalletConfig :=
  foldl (λ w c, perform_dummy c w) w calls.

End WithConfig.
End Calls.

(** A manager whose registries are object literals that list the active
    signer at reference 0 under two names and the inactive one at
    reference 1. *)
Definition literal_world : WalletManager.world unit :=
  WalletManager.World unit
    (WalletManager.Manager unit
       (JsObject [(lit "default", VRef 0); (lit "hot", VRef 0)])
       (JsObject [(lit "0", VRef 1)]) ())
    (<[0 := Entity true 0]> (<[1 := Entity false 0]> (<[2 := Entity true 0]> ∅))).

(** ** Concrete managers used by the examples *)

(** A store with one signer object at reference 0, active and never
    disposed, and an inactive one at reference 1. *)
Definition two_signers : gmap nat entity :=
  <[0 := Entity true 0]> (<[1 := Entity false 0]> ∅).

(** The world after [new WalletManager(signer)] where [signer] is the active
    object at reference 0; the configuration type has one value. *)
Definition fresh_world : WalletManager.world unit :=
  WalletManager.World unit
    (WalletManager.Manager unit (JsMap (<[lit "default" := VRef 0]> ∅)) (JsMap ∅) ())
    two_signers.

(** The same manager once [dispose()] has run. *)
Definition disposed_world : WalletManager.world unit :=
  WalletManager.World unit
    (WalletManager.Manager unit (JsObject []) (JsObject []) ())
    two_signers.

(** A buy request for ether against dollars that sets both amount fields,
    with amounts taken in [N]. *)
Definition both_amounts : FiatProtocol.options N :=
  {| FiatProtocol.cryptoAsset := Some (lit "eth");
     FiatProtocol.fiatCurrency := Some (lit "USD");
     FiatProtocol.recipient := None;
     FiatProtocol.refundAddress := None;
     FiatProtocol.cryptoAmount := Some 1%N;
     FiatProtocol.fiatAmount := Some 10000%N |}.

(** The same request with only [fiatAmount] set. *)
Definition fiat_amount_only : FiatProtocol.options N :=
  {| FiatProtocol.cryptoAsset := Some (lit "eth");
     FiatProtocol.fiatCurrency := Some (lit "USD");
     FiatProtocol.recipient := None;
     FiatProtocol.refundAddress := None;
     FiatProtocol.cryptoAmount := None;
     FiatProtocol.fiatAmount := Some 10000%N |}.

(** Stand-ins for the collaborators of the mnemonic primitive, used where an
    example needs concrete ones: a list of 2048 distinct eleven-letter words
    over [a] and [b] (the binary digits of the index, as letters), the
    identity as normalisation, and a byte source that repeats one byte. The
    hash of the examples is [SHA256.sha256]. *)
Definition example_word (index : nat) : list N :=
  map (λ c, c + 49)%N
      (Bip39.lpad (Bip39.toString2 (N.of_nat index)) (lit "0") 11).

Definition example_wordlist : list (list N) := map example_word (seq 0 2048).

Definition example_NFKD (str : list N) : list N := str.

Definition example_randomBytes (size : nat) : list byte :=
  replicate size "042"%byte.

(** The phrase of the all-zero entropy over the stand-in word list. *)
Definition example_phrase : list N :=
  Bip39.join (lit " ") (replicate 11 (example_word 0) ++ [example_word 3]).

(* ===================================================================== *)
(** * Part II: theorems                                                   *)
(* ===================================================================== *)

(** ** Errors *)

Lemma fails_with_Throw {A} (e : exn) (k : ErrorKind) :
  kind_of e = k → fails_with (@Throw A e) k.
Proof. intros Hk. exists e. split; [reflexivity | exact Hk]. Qed.

Lemma fails_with_kind {A} (e : exn) (k : ErrorKind) :
  fails_with (@Throw A e) k → kind_of e = k.
Proof. intros (e' & Heq & Hk). congruence. Qed.

Lemma fails_with_not_Ok {A} (a : A) (k : ErrorKind) : ¬ fails_with (Ok a) k.
Proof. intros (e & Heq & _). discriminate. Qed.

Lemma succeeds_not_Throw {A} (e : exn) : ¬ succeeds (@Throw A e).
Proof. intros (a & Heq). discriminate. Qed.

(** ** The mnemonic primitive *)

Section Bip39Strings.
Import Bip39.

Example split_examples :
  split 32%N (lit "") = [lit ""] ∧
  split 32%N (lit "invalid seed phrase") = [lit "invalid"; lit "seed"; lit "phrase"] ∧
  split 32%N (lit "a  b") = [lit "a"; lit ""; lit "b"].
Proof. repeat split; reflexivity. Qed.

Example binary_examples :
  toString2 5 = lit "101" ∧
  lpad (toString2 5) (lit "0") 8 = lit "00000101" ∧
  parseInt2 (lit "00000101") = Some 5%N ∧
  parseInt2 (lit "") = None ∧
  match_pieces 3 (lit "0110101") = Some [lit "011"; lit "010"; lit "1"] ∧
  match_pieces 3 (lit "") = None.
Proof. repeat split; reflexivity. Qed.

Lemma split_no_sep (sep : N) (word : list N) :
  sep ∉ word → split sep word = [word].
Proof.
  induction word as [|c word IH]; intros Hsep; [reflexivity|].
  apply not_elem_of_cons in Hsep as [Hc Hw]. simpl.
  rewrite decide_False by congruence. by rewrite IH.
Qed.

Lemma split_app_sep (sep : N) (word rest : list N) :
  sep ∉ word → split sep (word ++ sep :: rest) = word :: split sep rest.
Proof.
  induction word as [|c word IH]; intros Hsep; simpl.
  - by rewrite decide_True.
  - apply not_elem_of_cons in Hsep as [Hc Hw].
    rewrite decide_False by congruence. by rewrite IH.
Qed.

(** Splitting a joined phrase gives the words back. *)
Lemma split_join (sep : N) (words : list (list N)) :
  words ≠ [] → Forall (λ word, sep ∉ word) words →
  split sep (join [sep] words) = words.
Proof.
  induction words as [|word words IH]; intros Hne Hall; [done|].
  apply Forall_cons in Hall as [Hw Hall].
  destruct words as [|word' words].
  - simpl. by apply split_no_sep.
  - change (join [sep] (word :: word' :: words))
      with (word ++ sep :: join [sep] (word' :: words)).
    rewrite split_app_sep by done. by rewrite IH.
Qed.

Lemma indexOf_Some (array : list (list N)) (x : list N) (i : nat) :
  indexOf array x = Some i → array !! i = Some x.
Proof.
  revert i. induction array as [|y array IH]; intros i; simpl; [done|].
  destruct (decide (y = x)) as [->|Hne].
  - by intros [= <-].
  - destruct (indexOf array x) as [j|]; simpl; [|done].
    intros [= <-]. by apply IH.
Qed.

Lemma indexOf_None (array : list (list N)) (x : list N) :
  indexOf array x = None ↔ x ∉ array.
Proof.
  induction array as [|y array IH]; simpl.
  - split; [intros _; apply not_elem_of_nil | done].
  - destruct (decide (y = x)) as [->|Hne].
    + split; [done | intros H; exfalso; apply H; left].
    + rewrite not_elem_of_cons, <- IH.
      destruct (indexOf array x); simpl; split; try done.
      by intros [_ ?].
Qed.

(** In a list without duplicates, [indexOf] finds a word where it is. *)
Lemma indexOf_lookup (array : list (list N)) (x : list N) (i : nat) :
  NoDup array → array !! i = Some x → indexOf array x = Some i.
Proof.
  intros Hnd Hi. destruct (indexOf array x) as [j|] eqn:Hj.
  - apply indexOf_Some in Hj. f_equal. by eapply NoDup_lookup.
  - apply indexOf_None in Hj. exfalso. apply Hj. by eapply list_elem_of_lookup_2.
Qed.

Lemma lpad_loop_spec (fuel : nat) (str : list N) (c : N) (len : nat) :
  len - length str ≤ fuel →
  lpad_loop fuel str [c] len = replicate (len - length str) c ++ str.
Proof.
  revert str. induction fuel as [|fuel IH]; intros str Hfuel; simpl.
  - by replace (len - length str) with 0 by lia.
  - destruct (Nat.ltb_spec (length str) len) as [Hlt|Hge].
    + rewrite IH by (simpl; lia). simpl.
      replace (len - length str) with (S (len - S (length str))) by lia.
      by rewrite replicate_S_end, <- app_assoc.
    + by replace (len - length str) with 0 by lia.
Qed.

(** Padding with one character fills up to the wanted length. *)
Lemma lpad_spec (str : list N) (c : N) (len : nat) :
  lpad str [c] len = replicate (len - length str) c ++ str.
Proof. apply lpad_loop_spec. lia. Qed.


Local Open Scope N_scope.

Lemma digit2_bit (c : N) : is_bit c → digit2 c = Some (c - 48).
Proof. by intros [-> | ->]. Qed.

Lemma bit_value_bound (c : N) : is_bit c → c - 48 < 2.
Proof. by intros [-> | ->]. Qed.

(** Reading a bit string with an accumulator. *)
Lemma parse_digits2_acc (acc : N) (str : list N) :
  Forall is_bit str →
  parse_digits2 acc str = acc * 2 ^ N.of_nat (length str) + parse_digits2 0 str.
Proof.
  intros Hbits. revert acc.
  induction Hbits as [|c str Hc Hbits IH]; intros acc; simpl parse_digits2.
  - simpl. lia.
  - rewrite (digit2_bit c Hc).
    rewrite (IH (2 * acc + (c - 48))), (IH (2 * 0 + (c - 48))).
    rewrite length_cons, Nat2N.inj_succ, N.pow_succ_r'. lia.
Qed.

Lemma parse_digits2_bound (str : list N) :
  Forall is_bit str → parse_digits2 0 str < 2 ^ N.of_nat (length str).
Proof.
  induction 1 as [|c str Hc Hbits IH]; simpl parse_digits2.
  - simpl. lia.
  - rewrite (digit2_bit c Hc), parse_digits2_acc by done.
    rewrite length_cons, Nat2N.inj_succ, N.pow_succ_r'.
    pose proof (bit_value_bound c Hc). nia.
Qed.

Lemma parse_digits2_snoc (str : list N) (c : N) :
  Forall is_bit str → is_bit c →
  parse_digits2 0 (str ++ [c]) = 2 * parse_digits2 0 str + (c - 48).
Proof.
  intros Hbits Hc. induction Hbits as [|d str Hd Hbits IH]; simpl parse_digits2.
  - by rewrite (digit2_bit c Hc).
  - rewrite (digit2_bit d Hd).
    rewrite (parse_digits2_acc (2 * 0 + (d - 48)) (str ++ [c]))
      by (apply Forall_app; auto).
    rewrite (parse_digits2_acc (2 * 0 + (d - 48)) str) by done.
    rewrite IH, length_app, Nat2N.inj_add. simpl length.
    change (N.of_nat 1) with 1. rewrite N.pow_add_r. lia.
Qed.

Lemma parse_digits2_zeros (k : nat) (str : list N) :
  parse_digits2 0 (replicate k 48 ++ str) = parse_digits2 0 str.
Proof. induction k as [|k IH]; [done|]. simpl. exact IH. Qed.

(** Two bit strings of one length that read as the same number are equal. *)
Lemma parse_digits2_inj (s t : list N) :
  Forall is_bit s → Forall is_bit t → length s = length t →
  parse_digits2 0 s = parse_digits2 0 t → s = t.
Proof.
  intros Hs. revert t.
  induction Hs as [|c s Hc Hs IH]; intros [|d t] Ht Hlen Hval; try done.
  apply Forall_cons in Ht as [Hd Ht]. simpl in Hlen.
  simpl parse_digits2 in Hval.
  rewrite (digit2_bit c Hc), (digit2_bit d Hd) in Hval.
  rewrite (parse_digits2_acc _ s), (parse_digits2_acc _ t) in Hval by done.
  pose proof (parse_digits2_bound s Hs) as Bs.
  pose proof (parse_digits2_bound t Ht) as Bt.
  assert (Hl : length s = length t) by lia. rewrite <- Hl in Hval, Bt.
  pose proof (bit_value_bound c Hc). pose proof (bit_value_bound d Hd).
  assert (c - 48 = d - 48 ∧ parse_digits2 0 s = parse_digits2 0 t) as [Hcd Hst] by nia.
  f_equal.
  - destruct Hc as [-> | ->], Hd as [-> | ->]; done.
  - by apply IH.
Qed.

Lemma pos_toString2_bits (p : positive) : Forall is_bit (pos_toString2 p).
Proof.
  induction p as [q IH|q IH|]; simpl.
  - apply Forall_app. split; [exact IH | apply Forall_singleton; by right].
  - apply Forall_app. split; [exact IH | apply Forall_singleton; by left].
  - apply Forall_singleton. by right.
Qed.

Lemma parse_pos_toString2 (p : positive) :
  parse_digits2 0 (pos_toString2 p) = N.pos p.
Proof.
  induction p as [q IH|q IH|]; simpl pos_toString2.
  - rewrite parse_digits2_snoc, IH; [lia | apply pos_toString2_bits | by right].
  - rewrite parse_digits2_snoc, IH; [lia | apply pos_toString2_bits | by left].
  - reflexivity.
Qed.

Lemma length_pos_toString2 (p : positive) (k : nat) :
  N.pos p < 2 ^ N.of_nat k → (length (pos_toString2 p) ≤ k)%nat.
Proof.
  revert k. induction p as [q IH|q IH|]; intros k Hlt; simpl pos_toString2.
  - destruct k as [|k]; [simpl in Hlt; lia|].
    rewrite Nat2N.inj_succ, N.pow_succ_r' in Hlt.
    rewrite length_app. simpl. specialize (IH k). lia.
  - destruct k as [|k]; [simpl in Hlt; lia|].
    rewrite Nat2N.inj_succ, N.pow_succ_r' in Hlt.
    rewrite length_app. simpl. specialize (IH k). lia.
  - destruct k as [|k]; [simpl in Hlt; lia|]. simpl. lia.
Qed.

Lemma toString2_bits (n : N) : Forall is_bit (toString2 n).
Proof.
  destruct n; simpl; [apply Forall_singleton; by left | apply pos_toString2_bits].
Qed.

Lemma parse_toString2 (n : N) : parse_digits2 0 (toString2 n) = n.
Proof. destruct n; [done | apply parse_pos_toString2]. Qed.

Lemma length_toString2 (n : N) (k : nat) :
  n < 2 ^ N.of_nat k → (0 < k)%nat → (length (toString2 n) ≤ k)%nat.
Proof.
  destruct n; simpl; intros Hlt Hk; [lia | by apply length_pos_toString2].
Qed.

(** A number below [2^k] written on [k] binary digits. *)
Lemma lpad_toString2 (n : N) (k : nat) :
  n < 2 ^ N.of_nat k → (0 < k)%nat →
  length (lpad (toString2 n) (lit "0") k) = k ∧
  Forall is_bit (lpad (toString2 n) (lit "0") k) ∧
  parse_digits2 0 (lpad (toString2 n) (lit "0") k) = n.
Proof.
  intros Hlt Hk. pose proof (length_toString2 n k Hlt Hk) as Hlen.
  change (lit "0") with [48]. rewrite lpad_spec.
  split; [|split].
  - rewrite length_app, length_replicate. lia.
  - apply Forall_app. split; [|apply toString2_bits].
    apply Forall_replicate. by left.
  - by rewrite parse_digits2_zeros, parse_toString2.
Qed.

(** Writing the number a [k]-digit bit string reads as, on [k] digits, gives
    the bit string back. *)
Lemma lpad_toString2_parse (str : list N) (k : nat) :
  Forall is_bit str → length str = k → (0 < k)%nat →
  lpad (toString2 (parse_digits2 0 str)) (lit "0") k = str.
Proof.
  intros Hbits Hlen Hk.
  pose proof (parse_digits2_bound str Hbits) as Hb. rewrite Hlen in Hb.
  destruct (lpad_toString2 _ k Hb Hk) as (Hl & Hbs & Hv).
  apply parse_digits2_inj; auto. congruence.
Qed.

Lemma parseInt2_bits (str : list N) :
  Forall is_bit str → str ≠ [] → parseInt2 str = Some (parse_digits2 0 str).
Proof.
  intros Hbits Hne. destruct Hbits as [|c str Hc Hbits]; [done|].
  unfold parseInt2. by rewrite (digit2_bit c Hc).
Qed.


Local Close Scope N_scope.

(** Cutting a concatenation of [n]-character pieces gives the pieces back. *)
Lemma pieces_concat (fuel n : nat) (l : list (list N)) :
  0 < n → Forall (λ piece, length piece = n) l → length (concat l) ≤ fuel →
  pieces fuel n (concat l) = l.
Proof.
  intros Hn Hall. revert fuel.
  induction Hall as [|piece l Hp Hall IH]; intros fuel Hfuel.
  - by destruct fuel.
  - simpl concat in *. rewrite length_app in Hfuel.
    destruct fuel as [|fuel]; [lia|]. simpl pieces.
    destruct (piece ++ concat l) as [|c rest] eqn:Heq.
    { apply (f_equal length) in Heq. rewrite length_app in Heq. simpl in Heq. lia. }
    rewrite <- Heq.
    rewrite take_app_length', drop_app_length', IH by lia. done.
Qed.

Lemma match_pieces_concat (n : nat) (l : list (list N)) :
  0 < n → l ≠ [] → Forall (λ piece, length piece = n) l →
  match_pieces n (concat l) = Some l.
Proof.
  intros Hn Hne Hall. unfold match_pieces.
  destruct (concat l) as [|c rest] eqn:Heq.
  - destruct Hall as [|piece l Hp Hall]; [done|].
    apply (f_equal length) in Heq. simpl in Heq. rewrite length_app in Heq. lia.
  - rewrite <- Heq. f_equal. by apply pieces_concat.
Qed.

(** A string of [k * n] characters is the concatenation of [k] pieces of [n]
    characters. *)
Lemma concat_of_pieces (n k : nat) (str : list N) :
  length str = k * n →
  ∃ l, concat l = str ∧ length l = k ∧ Forall (λ piece, length piece = n) l.
Proof.
  revert str. induction k as [|k IH]; intros str Hlen.
  - exists []. destruct str; [done | simpl in Hlen; lia].
  - destruct (IH (drop n str)) as (l & Hc & Hl & Hall).
    { rewrite length_drop. lia. }
    exists (take n str :: l). split; [|split].
    + simpl. by rewrite Hc, take_drop.
    + simpl. by rewrite Hl.
    + constructor; [|done]. rewrite length_take. lia.
Qed.

Lemma Forall_join {P : N → Prop} (sep : list N) (words : list (list N)) :
  Forall P sep → Forall (Forall P) words → Forall P (join sep words).
Proof.
  intros Hsep Hall. induction Hall as [|word words Hw Hall IH]; [constructor|].
  destruct words as [|word' words]; [done|].
  change (join sep (word :: word' :: words))
    with (word ++ sep ++ join sep (word' :: words)).
  repeat (apply Forall_app; split); auto.
Qed.

Lemma map_throwing_Ok {A B} (f : A → result B) (l : list A) (k : list B) :
  Forall2 (λ x y, f x = Ok y) l k → map_throwing f l = Ok k.
Proof.
  induction 1 as [|x y l k Hxy _ IH]; [done|].
  simpl. rewrite Hxy. simpl. rewrite IH. done.
Qed.

Lemma map_throwing_inv {A B} (f : A → result B) (l : list A) (k : list B) :
  map_throwing f l = Ok k → Forall2 (λ x y, f x = Ok y) l k.
Proof.
  revert k. induction l as [|x l IH]; intros k; simpl.
  - intros [= <-]. constructor.
  - destruct (f x) as [y|e] eqn:Hx; [|done]. simpl.
    destruct (map_throwing f l) as [ys|e] eqn:Hl; [|done]. simpl.
    intros [= <-]. constructor; auto.
Qed.

End Bip39Strings.

Section Bip39Roundtrip.
Import Bip39.

Variable wordlist : list (list N).
Variable sha256 : list byte → list byte.
Variable NFKD : list N → list N.

Hypothesis wordlist_length : length wordlist = 2048.
Hypothesis wordlist_NoDup : NoDup wordlist.
Hypothesis wordlist_lowercase :
  Forall (Forall (λ c, 97 ≤ c ≤ 122)%N) wordlist.
Hypothesis NFKD_ascii : ∀ str, Forall (λ c, c < 128)%N str → NFKD str = str.
Hypothesis sha256_length : ∀ message, length (sha256 message) = 32.

(** The eight binary digits of a byte. *)
Lemma byte_digits (b : byte) :
  length (lpad (toString2 (Byte.to_N b)) (lit "0") 8) = 8 ∧
  Forall is_bit (lpad (toString2 (Byte.to_N b)) (lit "0") 8) ∧
  parse_digits2 0 (lpad (toString2 (Byte.to_N b)) (lit "0") 8) = Byte.to_N b.
Proof.
  apply lpad_toString2; [|lia].
  pose proof (Byte.to_N_bounded b). change (2 ^ N.of_nat 8)%N with 256%N. lia.
Qed.

Lemma bytesToBinary_pieces (buffer : list byte) :
  Forall (λ piece, length piece = 8)
    (map (λ x, lpad (toString2 x) (lit "0") 8) (map Byte.to_N buffer)).
Proof.
  rewrite map_map. apply Forall_map, Forall_forall. intros b _.
  apply byte_digits.
Qed.

Lemma length_bytesToBinary (buffer : list byte) :
  length (bytesToBinary (map Byte.to_N buffer)) = 8 * length buffer.
Proof.
  unfold bytesToBinary. induction buffer as [|b buffer IH]; [done|].
  simpl. rewrite length_app, IH.
  destruct (byte_digits b) as (-> & _). lia.
Qed.

Lemma bytesToBinary_bits (buffer : list byte) :
  Forall is_bit (bytesToBinary (map Byte.to_N buffer)).
Proof.
  unfold bytesToBinary. apply Forall_concat. rewrite map_map.
  apply Forall_map, Forall_forall. intros b _. apply byte_digits.
Qed.

Lemma length_deriveChecksumBits (entropy : list byte) :
  length entropy ≤ 32 →
  length (deriveChecksumBits sha256 entropy) = length entropy * 8 / 32.
Proof.
  intros Hle. unfold deriveChecksumBits.
  rewrite length_take, length_bytesToBinary, sha256_length.
  apply Nat.min_l, Nat.Div0.div_le_upper_bound. lia.
Qed.

Lemma deriveChecksumBits_bits (entropy : list byte) :
  Forall is_bit (deriveChecksumBits sha256 entropy).
Proof. apply Forall_take, bytesToBinary_bits. Qed.

(** Reading the bytes back from their binary digits. *)
Lemma Buffer_from_bytesToBinary (buffer : list byte) :
  Buffer_from (map binaryToByte
    (map (λ x, lpad (toString2 x) (lit "0") 8) (map Byte.to_N buffer))) = buffer.
Proof.
  unfold Buffer_from. rewrite !map_map.
  rewrite <- (map_id buffer) at 2. apply map_ext. intros b.
  destruct (byte_digits b) as (Hl & Hb & Hv).
  unfold binaryToByte. rewrite parseInt2_bits, Hv; [|done|].
  - simpl. pose proof (Byte.to_N_bounded b).
    rewrite N.mod_small by lia. by rewrite Byte.of_to_N.
  - intros Heq. rewrite Heq in Hl. done.
Qed.

(** The word a chunk of eleven binary digits selects. *)
Lemma chunk_word (chunk : list N) :
  Forall is_bit chunk → length chunk = 11 →
  ∃ word,
    wordlist !! N.to_nat (parse_digits2 0 chunk) = Some word ∧
    binaryToByte chunk = Some (parse_digits2 0 chunk) ∧
    indexOf wordlist word = Some (N.to_nat (parse_digits2 0 chunk)) ∧
    lpad (toString2 (N.of_nat (N.to_nat (parse_digits2 0 chunk)))) (lit "0") 11
      = chunk.
Proof.
  intros Hbits Hlen.
  pose proof (parse_digits2_bound chunk Hbits) as Hb. rewrite Hlen in Hb.
  change (2 ^ N.of_nat 11)%N with 2048%N in Hb.
  destruct (lookup_lt_is_Some_2 wordlist (N.to_nat (parse_digits2 0 chunk)))
    as [word Hw]; [lia|].
  exists word. split; [done|]. split; [|split].
  - apply parseInt2_bits; [done|]. intros ->. done.
  - by apply indexOf_lookup.
  - rewrite N2Nat.id. apply lpad_toString2_parse; [done..|lia].
Qed.


Lemma result_bind_Ok {A B} (a : A) (f : A → result B) : (Ok a ≫= f) = f a.
Proof. reflexivity. Qed.

Lemma not_japanese :
  bool_decide (wordlist !! 0 = Some japanese_first_word) = false.
Proof.
  apply bool_decide_eq_false_2. intros H0.
  apply list_elem_of_lookup_2 in H0.
  pose proof (proj1 (Forall_forall _ _) wordlist_lowercase _ H0) as Hlow.
  apply Forall_cons in Hlow as [Hc _]. cbv beta in Hc. lia.
Qed.

(** The words of the word list are free of spaces and are plain ASCII. *)
Lemma word_no_space (word : list N) : word ∈ wordlist → 32%N ∉ word.
Proof.
  intros Hin Hsp.
  pose proof (proj1 (Forall_forall _ _) wordlist_lowercase _ Hin) as Hlow.
  pose proof (proj1 (Forall_forall _ _) Hlow _ Hsp) as Hc. cbv beta in Hc. lia.
Qed.

Lemma word_ascii (word : list N) :
  word ∈ wordlist → Forall (λ c, c < 128)%N word.
Proof.
  intros Hin.
  pose proof (proj1 (Forall_forall _ _) wordlist_lowercase _ Hin) as Hlow.
  eapply Forall_impl; [exact Hlow|]. simpl. lia.
Qed.

Lemma word_at_chunk (chunk : list N) :
  Forall is_bit chunk → length chunk = 11 →
  word_at wordlist chunk ∈ wordlist ∧
  indexOf wordlist (word_at wordlist chunk) = Some (N.to_nat (parse_digits2 0 chunk)) ∧
  lpad (toString2 (N.of_nat (N.to_nat (parse_digits2 0 chunk)))) (lit "0") 11
    = chunk.
Proof.
  intros Hbits Hlen.
  destruct (chunk_word chunk Hbits Hlen) as (word & Hw & Hb & Hi & Hp).
  unfold word_at. rewrite Hb, Hw. simpl.
  split; [by eapply list_elem_of_lookup_2 | by split].
Qed.

(** The bits of a phrase: the entropy and checksum digits cut into chunks of
    eleven. *)
Lemma entropy_chunks (entropy : list byte) (q : nat) :
  length entropy = 4 * q → 4 ≤ q ≤ 8 →
  ∃ chunks,
    concat chunks = bytesToBinary (map Byte.to_N entropy)
                    ++ deriveChecksumBits sha256 entropy ∧
    length chunks = 3 * q ∧
    Forall (λ chunk, length chunk = 11) chunks ∧
    Forall (Forall is_bit) chunks.
Proof.
  intros Hlen Hq.
  destruct (concat_of_pieces 11 (3 * q)
              (bytesToBinary (map Byte.to_N entropy)
               ++ deriveChecksumBits sha256 entropy))
    as (chunks & Hc & Hl & Hall).
  { rewrite length_app, length_bytesToBinary, length_deriveChecksumBits by lia.
    rewrite Hlen. replace (4 * q * 8) with (q * 32) by lia.
    rewrite Nat.div_mul by done. lia. }
  exists chunks. split; [done|]. split; [done|]. split; [done|].
  apply Forall_concat. rewrite Hc. apply Forall_app. split.
  - apply bytesToBinary_bits.
  - apply deriveChecksumBits_bits.
Qed.

(** What [entropyToMnemonic] returns for an entropy of a valid length. *)
Lemma entropyToMnemonic_words (entropy : list byte) (q : nat) (chunks : list (list N)) :
  length entropy = 4 * q → 4 ≤ q ≤ 8 →
  concat chunks = bytesToBinary (map Byte.to_N entropy)
                  ++ deriveChecksumBits sha256 entropy →
  length chunks = 3 * q →
  Forall (λ chunk, length chunk = 11) chunks →
  entropyToMnemonic wordlist sha256 entropy
    = Ok (join (lit " ") (map (word_at wordlist) chunks)).
Proof.
  intros Hlen Hq Hc Hl Hall. unfold entropyToMnemonic. cbv zeta.
  rewrite Hlen.
  destruct (Nat.ltb_spec (4 * q) 16) as [?|_]; [lia|].
  destruct (Nat.ltb_spec 32 (4 * q)) as [?|_]; [lia|].
  rewrite (Nat.mul_comm 4 q), Nat.Div0.mod_mul. change (negb (0 =? 0)) with false. cbv iota.
  rewrite <- Hc, match_pieces_concat; [|lia| |done].
  - by rewrite not_japanese.
  - intros ->. simpl in Hl. lia.
Qed.


(** Decoding the phrase written for an entropy gives the entropy back. *)
Lemma mnemonicToEntropy_words (entropy : list byte) (q : nat) (chunks : list (list N)) :
  length entropy = 4 * q → 4 ≤ q ≤ 8 →
  concat chunks = bytesToBinary (map Byte.to_N entropy)
                  ++ deriveChecksumBits sha256 entropy →
  length chunks = 3 * q →
  Forall (λ chunk, length chunk = 11) chunks →
  Forall (Forall is_bit) chunks →
  split 32%N (join (lit " ") (map (word_at wordlist) chunks)) = map (word_at wordlist) chunks ∧
  mnemonicToEntropy wordlist sha256 NFKD (join (lit " ") (map (word_at wordlist) chunks))
    = Ok (toString_hex entropy).
Proof.
  intros Hlen Hq Hc Hl Hall Hbits.
  assert (Hwords : Forall (λ chunk,
            word_at wordlist chunk ∈ wordlist ∧
            indexOf wordlist (word_at wordlist chunk)
              = Some (N.to_nat (parse_digits2 0 chunk)) ∧
            lpad (toString2 (N.of_nat (N.to_nat (parse_digits2 0 chunk))))
              (lit "0") 11 = chunk) chunks).
  { apply Forall_forall. intros chunk Hin. apply word_at_chunk.
    - by apply (proj1 (Forall_forall _ _) Hbits).
    - by apply (proj1 (Forall_forall _ _) Hall). }
  assert (Hsplit : split 32%N (join (lit " ") (map (word_at wordlist) chunks))
                   = map (word_at wordlist) chunks).
  { change (lit " ") with [32%N]. apply split_join.
    - intros Hnil. apply (f_equal length) in Hnil.
      rewrite length_map, Hl in Hnil. simpl in Hnil. lia.
    - apply Forall_map. eapply Forall_impl; [exact Hwords|].
      intros chunk (Hin & _). by apply word_no_space. }
  split; [exact Hsplit|].
  unfold mnemonicToEntropy, normalize. cbv zeta.
  rewrite NFKD_ascii.
  2:{ apply Forall_join.
      - apply Forall_singleton. done.
      - apply Forall_map. eapply Forall_impl; [exact Hwords|].
        intros chunk (Hin & _). by apply word_ascii. }
  rewrite Hsplit, length_map, Hl.
  rewrite (Nat.mul_comm 3 q), Nat.Div0.mod_mul. change (negb (0 =? 0)) with false. cbv iota.
  rewrite (map_throwing_Ok _ _ chunks).
  2:{ apply Forall2_fmap_l, Forall_Forall2_diag.
      eapply Forall_impl; [exact Hwords|].
      intros chunk (_ & Hi & Hp). unfold compose. rewrite Hi. by rewrite Hp. }
  rewrite result_bind_Ok, Hc.
  rewrite length_app, length_bytesToBinary, length_deriveChecksumBits by lia.
  rewrite Hlen. replace (4 * q * 8) with (q * 32) by lia.
  rewrite Nat.div_mul by done.
  replace (8 * (4 * q) + q) with (q * 33) by lia.
  rewrite Nat.div_mul by done.
  rewrite take_app_length', drop_app_length'
    by (rewrite length_bytesToBinary, Hlen; lia).
  unfold bytesToBinary at 1.
  rewrite match_pieces_concat; [|lia| |apply bytesToBinary_pieces].
  2:{ intros Hnil. apply (f_equal length) in Hnil.
      rewrite !length_map, Hlen in Hnil. simpl in Hnil. lia. }
  rewrite !length_map, Hlen.
  destruct (Nat.ltb_spec (4 * q) 16) as [?|_]; [lia|].
  destruct (Nat.ltb_spec 32 (4 * q)) as [?|_]; [lia|].
  rewrite (Nat.mul_comm 4 q), Nat.Div0.mod_mul. change (negb (0 =? 0)) with false. cbv iota.
  rewrite Buffer_from_bytesToBinary.
  by rewrite bool_decide_eq_true_2.
Qed.

(** Whatever the entropy of a valid length, the phrase written for it is
    accepted. *)
Lemma validateMnemonic_entropyToMnemonic (entropy : list byte) (q : nat) :
  length entropy = 4 * q → 4 ≤ q ≤ 8 →
  ∃ phrase,
    entropyToMnemonic wordlist sha256 entropy = Ok phrase ∧
    length (split 32%N phrase) = 3 * q ∧
    Forall (λ word, word ∈ wordlist) (split 32%N phrase) ∧
    validateMnemonic wordlist sha256 NFKD phrase = true.
Proof.
  intros Hlen Hq.
  destruct (entropy_chunks entropy q Hlen Hq) as (chunks & Hc & Hl & Hall & Hbits).
  destruct (mnemonicToEntropy_words entropy q chunks Hlen Hq Hc Hl Hall Hbits)
    as [Hsplit Hdecode].
  exists (join (lit " ") (map (word_at wordlist) chunks)).
  split; [by apply (entropyToMnemonic_words entropy q)|].
  rewrite Hsplit. split; [by rewrite length_map|]. split.
  - apply Forall_map, Forall_forall. intros chunk Hin. apply word_at_chunk.
    + by apply (proj1 (Forall_forall _ _) Hbits).
    + by apply (proj1 (Forall_forall _ _) Hall).
  - unfold validateMnemonic. by rewrite Hdecode.
Qed.

Lemma length_concat_pieces (n : nat) (l : list (list N)) :
  Forall (λ piece, length piece = n) l → length (concat l) = n * length l.
Proof.
  induction 1 as [|piece l Hp _ IH]; simpl; [lia|].
  rewrite length_app, IH, Hp. lia.
Qed.

(** Every phrase that decodes is well formed. *)
Lemma mnemonicToEntropy_well_formed (mnemonic hex : list N) :
  mnemonicToEntropy wordlist sha256 NFKD mnemonic = Ok hex →
  well_formed wordlist NFKD mnemonic = true.
Proof.
  unfold mnemonicToEntropy, well_formed, normalize. cbv zeta.
  set (words := split 32%N (NFKD mnemonic)).
  destruct (Nat.eqb_spec (length words mod 3) 0) as [Hmod|]; [|done].
  change (negb true) with false. cbv iota.
  destruct (map_throwing _ words) as [chunks|e] eqn:Hmap; [|done].
  rewrite result_bind_Ok. apply map_throwing_inv in Hmap.
  assert (Hwords : Forall (λ word, word ∈ wordlist) words
                   ∧ Forall (λ chunk, length chunk = 11) chunks).
  { clear -Hmap wordlist_length.
    induction Hmap as [|word chunk words chunks Hw _ [IHw IHc]]; [by split|].
    destruct (indexOf wordlist word) as [index|] eqn:Hi; [|done].
    injection Hw as <-. apply indexOf_Some in Hi.
    split; constructor; auto.
    - by eapply list_elem_of_lookup_2.
    - apply lookup_lt_Some in Hi. apply lpad_toString2; [|lia].
      change (2 ^ N.of_nat 11)%N with 2048%N. lia. }
  destruct Hwords as [Hin Hall].
  pose proof (Forall2_length _ _ _ Hmap) as Hlen.
  pose proof (length_concat_pieces 11 chunks Hall) as Hbits.
  pose proof (Nat.div_mod_eq (length words) 3) as Hdiv.
  set (t := length words / 3) in *.
  assert (Hn : length words = 3 * t) by lia.
  rewrite <- Hlen, Hn in Hbits.
  rewrite Hbits. replace (11 * (3 * t)) with (t * 33) by lia.
  rewrite Nat.div_mul by done.
  destruct (concat_of_pieces 8 (4 * t) (take (t * 32) (concat chunks)))
    as (l & Hc & Hl & Hl8).
  { rewrite length_take, Hbits. lia. }
  rewrite <- Hc. destruct l as [|piece l].
  { simpl. done. }
  rewrite match_pieces_concat; [|lia|done|done].
  rewrite length_map, Hl.
  destruct (Nat.ltb_spec (4 * t) 16) as [?|Hlo]; [done|].
  destruct (Nat.ltb_spec 32 (4 * t)) as [?|Hhi]; [done|].
  intros _. rewrite Hn.
  repeat (apply andb_true_intro; split).
  - done.
  - apply Nat.leb_le. lia.
  - apply Nat.leb_le. lia.
  - apply forallb_forall. intros word Hw. apply bool_decide_eq_true_2.
    apply (proj1 (Forall_forall _ _) Hin). by apply list_elem_of_In.
Qed.

(** A phrase that is not well formed is not accepted. *)
Lemma validateMnemonic_malformed (mnemonic : list N) :
  well_formed wordlist NFKD mnemonic = false →
  validateMnemonic wordlist sha256 NFKD mnemonic = false.
Proof.
  intros Hwf. unfold validateMnemonic.
  destruct (mnemonicToEntropy wordlist sha256 NFKD mnemonic) as [hex|e] eqn:Hd;
    [|done].
  apply mnemonicToEntropy_well_formed in Hd. congruence.
Qed.

End Bip39Roundtrip.

(** The digests of the empty message and of ["abc"]. *)
Example sha256_vectors :
  map Byte.to_N (SHA256.sha256 []) =
    [0xe3; 0xb0; 0xc4; 0x42; 0x98; 0xfc; 0x1c; 0x14; 0x9a; 0xfb; 0xf4; 0xc8;
     0x99; 0x6f; 0xb9; 0x24; 0x27; 0xae; 0x41; 0xe4; 0x64; 0x9b; 0x93; 0x4c;
     0xa4; 0x95; 0x99; 0x1b; 0x78; 0x52; 0xb8; 0x55]%N ∧
  map Byte.to_N (SHA256.sha256 ["a"; "b"; "c"]%byte) =
    [0xba; 0x78; 0x16; 0xbf; 0x8f; 0x01; 0xcf; 0xea; 0x41; 0x41; 0x40; 0xde;
     0x5d; 0xae; 0x22; 0x23; 0xb0; 0x03; 0x61; 0xa3; 0x96; 0x17; 0x7a; 0x9c;
     0xb4; 0x10; 0xff; 0x61; 0xf2; 0x00; 0x15; 0xad]%N.
Proof. split; vm_compute; reflexivity. Qed.

Lemma length_sha256 (message : list byte) : length (SHA256.sha256 message) = 32.
Proof. unfold SHA256.sha256. cbv zeta. rewrite length_map. reflexivity. Qed.

(** The stand-in word list meets what is asked of a word list. *)
Lemma example_word_inj (i j : nat) : example_word i = example_word j → i = j.
Proof.
  unfold example_word. intros Heq.
  apply (list_fmap_eq_inj (λ c, c + 49)%N) in Heq; [|intros x y; lia].
  apply (f_equal (Bip39.parse_digits2 0%N)) in Heq.
  change (lit "0") with [48%N] in Heq.
  rewrite !lpad_spec, !parse_digits2_zeros, !parse_toString2 in Heq. lia.
Qed.

Lemma example_wordlist_NoDup : NoDup example_wordlist.
Proof.
  apply NoDup_fmap_2; [exact example_word_inj | apply NoDup_seq].
Qed.

Lemma example_wordlist_lowercase :
  Forall (Forall (λ c, 97 ≤ c ≤ 122)%N) example_wordlist.
Proof.
  apply Forall_map, Forall_forall. intros i Hi.
  apply elem_of_seq in Hi. unfold example_word.
  destruct (lpad_toString2 (N.of_nat i) 11) as (_ & Hbits & _); [|lia|].
  { change (2 ^ N.of_nat 11)%N with 2048%N. lia. }
  apply Forall_map. eapply Forall_impl; [exact Hbits|].
  intros c [-> | ->]; simpl; lia.
Qed.

(** The published BIP-39 vectors for the all-zero and the all-one entropy of
    128 bits, read through the stand-in word list: eleven times the word of
    index 0 and then the word of index 3 ("abandon ... about"), eleven times
    the word of index 2047 and then the word of index 2037 ("zoo ... wrong").
    Both phrases are accepted, and twelve times the word of index 0 is
    rejected for its checksum. *)
Example bip39_vectors :
  Bip39.entropyToMnemonic example_wordlist SHA256.sha256 (replicate 16 "000"%byte)
    = Ok (Bip39.join (lit " ") (replicate 11 (example_word 0) ++ [example_word 3])) ∧
  Bip39.entropyToMnemonic example_wordlist SHA256.sha256 (replicate 16 "255"%byte)
    = Ok (Bip39.join (lit " ")
            (replicate 11 (example_word 2047) ++ [example_word 2037])) ∧
  Bip39.validateMnemonic example_wordlist SHA256.sha256 example_NFKD
    (Bip39.join (lit " ") (replicate 11 (example_word 0) ++ [example_word 3]))
    = true ∧
  Bip39.mnemonicToEntropy example_wordlist SHA256.sha256 example_NFKD
    (Bip39.join (lit " ") (replicate 12 (example_word 0)))
    = Throw (Error Bip39.INVALID_CHECKSUM).
Proof. repeat split; vm_compute; reflexivity. Qed.

(** C8: with a word list of 2048 distinct lower-case words, a hash with a
    32-byte digest and a random source that returns as many bytes as asked,
    [getRandomSeedPhrase()] returns a phrase; the phrase has exactly 12 words,
    each from the word list, and [isValidSeedPhrase] returns true for it. *)
Theorem random_seed_phrase_valid
    (wordlist : list (list N)) (sha256 : list byte → list byte)
    (NFKD : list N → list N) (randomBytes : nat → list byte) :
  length wordlist = 2048 →
  NoDup wordlist →
  Forall (Forall (λ c, 97 ≤ c ≤ 122)%N) wordlist →
  (∀ str, Forall (λ c, c < 128)%N str → NFKD str = str) →
  (∀ message, length (sha256 message) = 32) →
  (∀ size, length (randomBytes size) = size) →
  ∃ phrase,
    WalletManager.getRandomSeedPhrase wordlist sha256 randomBytes = Ok phrase ∧
    length (Bip39.split 32%N phrase) = 12 ∧
    Forall (λ word, word ∈ wordlist) (Bip39.split 32%N phrase) ∧
    WalletManager.isValidSeedPhrase wordlist sha256 NFKD phrase = Ok true.
Proof.
  intros Hlen Hnd Hlow Hnfkd Hsha Hrng.
  destruct (validateMnemonic_entropyToMnemonic wordlist sha256 NFKD
              Hlen Hnd Hlow Hnfkd Hsha (randomBytes 16) 4)
    as (phrase & Hgen & Hwords & Hin & Hvalid); [apply Hrng | lia |].
  exists phrase. split; [exact Hgen|]. split; [exact Hwords|].
  split; [exact Hin|].
  unfold WalletManager.isValidSeedPhrase. by rewrite Hvalid.
Qed.

Lemma random_seed_phrase_valid_witness :
  ∃ phrase,
    WalletManager.getRandomSeedPhrase example_wordlist SHA256.sha256
      example_randomBytes = Ok phrase ∧
    length (Bip39.split 32%N phrase) = 12 ∧
    Forall (λ word, word ∈ example_wordlist) (Bip39.split 32%N phrase) ∧
    WalletManager.isValidSeedPhrase example_wordlist SHA256.sha256
      example_NFKD phrase = Ok true.
Proof.
  apply (random_seed_phrase_valid example_wordlist SHA256.sha256
           example_NFKD example_randomBytes).
  - reflexivity.
  - exact example_wordlist_NoDup.
  - exact example_wordlist_lowercase.
  - intros str _. reflexivity.
  - exact length_sha256.
  - intros size. apply length_replicate.
Defined.

(** C9: with a word list of 2048 words, [isValidSeedPhrase] returns false,
    and does not throw, for every phrase that is not well formed (a word
    count other than 12, 15, 18, 21 or 24, or a word outside the word list),
    in particular for the empty string and for ["invalid seed phrase"]. *)
Theorem malformed_seed_phrase_rejected
    (wordlist : list (list N)) (sha256 : list byte → list byte)
    (NFKD : list N → list N) :
  length wordlist = 2048 →
  (∀ str, Forall (λ c, c < 128)%N str → NFKD str = str) →
  (∀ seedPhrase,
     Bip39.well_formed wordlist NFKD seedPhrase = false →
     WalletManager.isValidSeedPhrase wordlist sha256 NFKD seedPhrase = Ok false) ∧
  WalletManager.isValidSeedPhrase wordlist sha256 NFKD (lit "") = Ok false ∧
  WalletManager.isValidSeedPhrase wordlist sha256 NFKD (lit "invalid seed phrase")
    = Ok false.
Proof.
  intros Hlen Hnfkd.
  assert (Hgen : ∀ seedPhrase,
     Bip39.well_formed wordlist NFKD seedPhrase = false →
     WalletManager.isValidSeedPhrase wordlist sha256 NFKD seedPhrase = Ok false).
  { intros seedPhrase Hwf. unfold WalletManager.isValidSeedPhrase.
    by rewrite (validateMnemonic_malformed wordlist sha256 NFKD Hlen). }
  split; [exact Hgen|]. split; apply Hgen.
  - unfold Bip39.well_formed, Bip39.normalize.
    rewrite Hnfkd by constructor. reflexivity.
  - unfold Bip39.well_formed, Bip39.normalize.
    rewrite Hnfkd by (apply Forall_forall; intros c Hc;
                      repeat (apply elem_of_cons in Hc as [-> | Hc]; [done|]);
                      by apply elem_of_nil in Hc).
    reflexivity.
Qed.

Lemma malformed_seed_phrase_rejected_witness :
  WalletManager.isValidSeedPhrase example_wordlist SHA256.sha256 example_NFKD
    (lit "") = Ok false ∧
  WalletManager.isValidSeedPhrase example_wordlist SHA256.sha256 example_NFKD
    (lit "invalid seed phrase") = Ok false.
Proof.
  apply (malformed_seed_phrase_rejected example_wordlist SHA256.sha256
           example_NFKD).
  - reflexivity.
  - intros str _. reflexivity.
Defined.

(** ** The wallet manager *)

Section WalletManagerFacts.

Import WalletManager.

Context {WalletConfig : Type} (empty_object : WalletConfig).

Implicit Types (w : world WalletConfig) (m : t WalletConfig).

(** What [dispose()] does to a manager whose two registries are maps: no
    object is visited, and both fields become empty object literals. *)
Lemma dispose_of_maps w signers accounts :
  _signers _ (this _ w) = JsMap signers →
  _accounts _ (this _ w) = JsMap accounts →
  dispose WalletConfig w =
    (Ok (), World _ (Manager _ (JsObject []) (JsObject []) (_config _ (this _ w)))
                    (heap _ w)).
Proof.
  destruct w as [[s a c] h]; simpl. intros -> ->. reflexivity.
Qed.

(** One step of sequencing. *)
Lemma bind_run {A B} (c : M WalletConfig A) (k : A → M WalletConfig B) w :
  (c ≫= k) w =
    match c w with
    | (Ok a, w') => k a w'
    | (Throw e, w') => (Throw e, w')
    end.
Proof. reflexivity. Qed.

(** Whenever [dispose()] returns, both registries are empty object
    literals. *)
Lemma dispose_registries w w' :
  dispose WalletConfig w = (Ok (), w') →
  _signers _ (this _ w') = JsObject [] ∧ _accounts _ (this _ w') = JsObject [].
Proof.
  unfold dispose. rewrite bind_run. cbn [read]. rewrite bind_run.
  destruct (for_of _ _ _ w) as [[[]|e] w1]; [|discriminate].
  rewrite bind_run. cbn [read]. rewrite bind_run.
  destruct (for_of _ _ _ w1) as [[[]|e] w2]; [|discriminate].
  rewrite bind_run. cbn.
  intros [= <-]. split; reflexivity.
Qed.

End WalletManagerFacts.

Import WalletManager.

(** C2 (the code departs from the claim). [dispose()] walks
    [Object.values(this._signers)], and for the [Map] the constructor builds
    that list is empty: on the manager built around an active default signer,
    [dispose()] returns without having called the signer's [dispose()], and the
    signer is still active afterwards. *)
Theorem dispose_skips_active_default_signer :
  constructor unit () (VRef 0) None = Ok (this unit fresh_world) ∧
  is_active (heap unit fresh_world) (VRef 0) = true ∧
  dispose unit fresh_world = (Ok (), disposed_world) ∧
  heap unit disposed_world !! 0 = Some (Entity true 0) ∧
  is_active (heap unit disposed_world) (VRef 0) = true.
Proof.
  split; [reflexivity|]. split; [reflexivity|].
  split; [|split; reflexivity].
  apply (dispose_of_maps (WalletConfig := unit) fresh_world
           (<[lit "default" := VRef 0]> ∅) ∅); reflexivity.
Qed.

(** C3, the claim as stated fails: after [dispose()] has completed,
    [getAccount(0)] is rejected with [NotImplementedError] and [getSigner]
    throws a [TypeError]; neither fails with [Disposed]. *)
Lemma after_dispose_not_Disposed :
  dispose unit fresh_world = (Ok (), disposed_world) ∧
  getAccount unit (Some 0%N) None disposed_world
    = (Throw (NotImplementedError "getAccount(index)"), disposed_world) ∧
  getSigner unit (lit "default") disposed_world
    = (Throw (TypeError "this._signers.get is not a function"), disposed_world) ∧
  ¬ fails_with (getAccount unit (Some 0%N) None disposed_world).1 Disposed ∧
  ¬ fails_with (getSigner unit (lit "default") disposed_world).1 Disposed.
Proof.
  split.
  - apply (dispose_of_maps (WalletConfig := unit) fresh_world
             (<[lit "default" := VRef 0]> ∅) ∅); reflexivity.
  - split; [reflexivity|]. split; [reflexivity|].
    split; intros H; apply fails_with_kind in H; discriminate H.
Qed.

(** C3, amended: on a manager on which [dispose()] has completed, both
    registries are the empty object literal, so no signer or account is
    registered any more, and [getAccount], [getAccountByPath] and
    [getFeeRates] fail with [NotImplemented], as they do before disposal, and
    leave the manager as [dispose()] left it. *)
Theorem after_dispose_NotImplemented {WalletConfig : Type}
    (w w' : world WalletConfig) index path signerName :
  dispose WalletConfig w = (Ok (), w') →
  _signers _ (this _ w') = JsObject [] ∧
  _accounts _ (this _ w') = JsObject [] ∧
  fails_with (getAccount _ index signerName w').1 NotImplemented ∧
  fails_with (getAccountByPath _ path signerName w').1 NotImplemented ∧
  fails_with (getFeeRates _ w').1 NotImplemented ∧
  (getAccount _ index signerName w').2 = w' ∧
  (getAccountByPath _ path signerName w').2 = w' ∧
  (getFeeRates _ w').2 = w'.
Proof.
  intros H. destruct (dispose_registries w w' H) as [Hs Ha].
  split; [exact Hs|]. split; [exact Ha|].
  repeat split; apply fails_with_Throw; reflexivity.
Qed.

Lemma after_dispose_NotImplemented_witness :
  dispose unit fresh_world = (Ok (), disposed_world) ∧
  _signers unit (this unit disposed_world) = JsObject [] ∧
  fails_with (getAccount unit (Some 0%N) None disposed_world).1 NotImplemented.
Proof.
  assert (H : dispose unit fresh_world = (Ok (), disposed_world)).
  { apply (dispose_of_maps (WalletConfig := unit) fresh_world
             (<[lit "default" := VRef 0]> ∅) ∅); reflexivity. }
  split; [exact H|].
  pose proof (after_dispose_NotImplemented fresh_world disposed_world
                (Some 0%N) (lit "0'/0/0") None H) as (Hs & _ & Hget & _).
  split; [exact Hs | exact Hget].
Defined.

(** C4, the claim as stated fails: [new WalletManager(undefined)] returns a
    manager; it does not fail with [InvalidArgument]. *)
Lemma constructor_accepts_undefined :
  succeeds (constructor unit () VUndefined None) ∧
  ¬ fails_with (constructor unit () VUndefined None) InvalidArgument.
Proof.
  split.
  - eexists. reflexivity.
  - apply fails_with_not_Ok.
Qed.

(** C4, amended: construction never fails; whatever is passed as the default
    signer, [undefined] included, is registered under ["default"] in an
    otherwise empty signer map, no account is registered, and the
    configuration is stored ([{ }] when none is given). *)
Theorem constructor_registers_default {WalletConfig : Type}
    (empty_object : WalletConfig) (signer : value) (config : option WalletConfig)
    (h : gmap nat entity) :
  ∃ m, constructor WalletConfig empty_object signer config = Ok m ∧
       getSigner _ (lit "default") (World _ m h) = (Ok signer, World _ m h) ∧
       _signers _ m = JsMap {[ lit "default" := signer ]} ∧
       _accounts _ m = JsMap ∅ ∧
       _config _ m = default empty_object config.
Proof.
  eexists. split; [reflexivity|].
  split; [|repeat split].
  unfold getSigner. rewrite bind_run. cbn [read lift this _signers registry_get].
  by rewrite lookup_insert_eq.
Qed.

(** C5, the claim as stated fails: on the abstract manager
    [createSigner("hot", signer)] throws, and [getSigner("hot")] afterwards
    returns [undefined], not the signer. *)
Lemma createSigner_throws :
  ¬ succeeds (createSigner unit (lit "hot") (VRef 1) fresh_world).1 ∧
  getSigner unit (lit "hot") (createSigner unit (lit "hot") (VRef 1) fresh_world).2
    = (Ok VUndefined, fresh_world).
Proof.
  split.
  - apply succeeds_not_Throw.
  - vm_compute. reflexivity.
Qed.

(** C5, amended: on the abstract manager [createSigner(name, signer)] fails
    with [NotImplemented] for every name and signer and changes nothing, so a
    later [getSigner] answers as it did before the call, for every name. *)
Theorem createSigner_NotImplemented {WalletConfig : Type}
    (w : world WalletConfig) (name name' : list N) (signer : value) :
  fails_with (createSigner _ name signer w).1 NotImplemented ∧
  (createSigner _ name signer w).2 = w ∧
  getSigner _ name' (createSigner _ name signer w).2 = getSigner _ name' w.
Proof.
  split; [|split]; try reflexivity.
  apply fails_with_Throw. reflexivity.
Qed.

(** C6: on the abstract manager [getAccount], [getAccountByPath] and
    [getFeeRates] fail with [NotImplemented], for every index, path and signer
    name, given or left to their defaults, and in every state of the
    manager. *)
Theorem abstract_methods_NotImplemented {WalletConfig : Type}
    (w : world WalletConfig) (index : option N) (path : list N)
    (signerName : option (list N)) :
  fails_with (getAccount _ index signerName w).1 NotImplemented ∧
  fails_with (getAccountByPath _ path signerName w).1 NotImplemented ∧
  fails_with (getFeeRates _ w).1 NotImplemented.
Proof.
  repeat split; apply fails_with_Throw; reflexivity.
Qed.

(** C7: before disposal (the signers are held in the map), [getSigner(name)]
    returns the signer registered under [name] when there is one and
    [undefined] when there is none; it does not throw and changes nothing. *)
Theorem getSigner_registered_or_undefined {WalletConfig : Type}
    (w : world WalletConfig) (entries : gmap (list N) value) (name : list N) :
  _signers _ (this _ w) = JsMap entries →
  (∀ signer, entries !! name = Some signer →
             getSigner _ name w = (Ok signer, w)) ∧
  (entries !! name = None → getSigner _ name w = (Ok VUndefined, w)) ∧
  succeeds (getSigner _ name w).1.
Proof.
  intros Hs.
  assert (Hget : getSigner _ name w = (Ok (default VUndefined (entries !! name)), w)).
  { unfold getSigner. rewrite bind_run. cbn [read lift]. by rewrite Hs. }
  rewrite Hget. split; [|split].
  - by intros signer ->.
  - by intros ->.
  - by eexists.
Qed.

Lemma getSigner_registered_or_undefined_witness :
  getSigner unit (lit "default") fresh_world = (Ok (VRef 0), fresh_world) ∧
  getSigner unit (lit "cold") fresh_world = (Ok VUndefined, fresh_world).
Proof.
  pose proof (getSigner_registered_or_undefined fresh_world
                (<[lit "default" := VRef 0]> ∅) (lit "default") eq_refl) as Hd.
  pose proof (getSigner_registered_or_undefined fresh_world
                (<[lit "default" := VRef 0]> ∅) (lit "cold") eq_refl) as Hc.
  split.
  - apply Hd. vm_compute. reflexivity.
  - apply Hc. vm_compute. reflexivity.
Defined.

(** C10: once [dispose()] has returned, calling it again returns as well and
    leaves the manager and the store exactly as the first call left them,
    with both registries the empty object literal. *)
Theorem dispose_idempotent {WalletConfig : Type} (w w1 : world WalletConfig) :
  dispose WalletConfig w = (Ok (), w1) →
  dispose WalletConfig w1 = (Ok (), w1) ∧
  _signers _ (this _ w1) = JsObject [] ∧
  _accounts _ (this _ w1) = JsObject [].
Proof.
  intros H. destruct (dispose_registries w w1 H) as [Hs Ha].
  destruct w1 as [[s a c] h]. simpl in Hs, Ha. subst s a.
  split; [reflexivity|]. split; reflexivity.
Qed.

Lemma dispose_idempotent_witness :
  dispose unit fresh_world = (Ok (), disposed_world) ∧
  dispose unit disposed_world = (Ok (), disposed_world) ∧
  _signers unit (this unit disposed_world) = JsObject [] ∧
  _accounts unit (this unit disposed_world) = JsObject [].
Proof.
  assert (H : dispose unit fresh_world = (Ok (), disposed_world)).
  { apply (dispose_of_maps (WalletConfig := unit) fresh_world
             (<[lit "default" := VRef 0]> ∅) ∅); reflexivity. }
  split; [exact H|].
  exact (dispose_idempotent fresh_world disposed_world H).
Defined.

(** ** The fiat protocol and the option types *)

(** The two variants of an amount choice admit exactly the objects in which
    one of the two fields is present. *)
Lemma one_variant_iff_one_present {A B}
    (x : option A) (y : option B) :
  bool_decide (is_Some x) && bool_decide (y = None)
  || bool_decide (is_Some y) && bool_decide (x = None)
  = (present x + present y =? 1).
Proof. destruct x, y; reflexivity. Qed.

Example BuyOptions_examples :
  FiatProtocol.BuyOptions N fiat_amount_only = true ∧
  FiatProtocol.BuyOptions N both_amounts = false.
Proof. split; reflexivity. Qed.

(** C1, the claim as stated fails: a [quoteBuy] request with both
    [cryptoAmount] and [fiatAmount] present is rejected with
    [NotImplementedError], not with [InvalidAmountSpecification]. *)
Lemma quoteBuy_both_amounts_not_InvalidAmountSpecification :
  present (FiatProtocol.cryptoAmount N both_amounts)
    + present (FiatProtocol.fiatAmount N both_amounts) = 2 ∧
  FiatProtocol.quoteBuy N (FiatProtocol.constructor None) both_amounts
    = Throw (NotImplementedError "quoteBuy(options)") ∧
  ¬ fails_with (FiatProtocol.quoteBuy N (FiatProtocol.constructor None) both_amounts)
      InvalidAmountSpecification.
Proof.
  split; [reflexivity|]. split; [reflexivity|].
  intros H. apply fails_with_kind in H. discriminate H.
Qed.

(** C1, amended: on the abstract fiat protocol [quoteBuy], [buy], [quoteSell]
    and [sell] fail with [NotImplemented] for every options object, whichever
    amount fields it has; that exactly one amount field is present is what the
    declared option types say: given the common fields, [BuyOptions],
    [SellOptions] and [SwapOptions] admit an object exactly when one of its
    two amount fields is present and the other is absent. *)
Theorem fiat_operations_NotImplemented {amount : Type}
    (p : FiatProtocol.t) (o : FiatProtocol.options amount)
    (s : SwapProtocol.options amount) :
  fails_with (FiatProtocol.quoteBuy amount p o) NotImplemented ∧
  fails_with (FiatProtocol.buy amount p o) NotImplemented ∧
  fails_with (FiatProtocol.quoteSell amount p o) NotImplemented ∧
  fails_with (FiatProtocol.sell amount p o) NotImplemented ∧
  FiatProtocol.BuyOptions amount o =
    FiatProtocol.BuyCommonOptions amount o
    && (present (FiatProtocol.cryptoAmount amount o)
        + present (FiatProtocol.fiatAmount amount o) =? 1) ∧
  FiatProtocol.SellOptions amount o =
    FiatProtocol.SellCommonOptions amount o
    && (present (FiatProtocol.cryptoAmount amount o)
        + present (FiatProtocol.fiatAmount amount o) =? 1) ∧
  SwapProtocol.SwapOptions amount s =
    SwapProtocol.SwapCommonOptions amount s
    && (present (SwapProtocol.tokenInAmount amount s)
        + present (SwapProtocol.tokenOutAmount amount s) =? 1).
Proof.
  repeat split; try (apply fails_with_Throw; reflexivity).
  - unfold FiatProtocol.BuyOptions, FiatProtocol.ExactCryptoAmountOptions,
      FiatProtocol.FiatAmountOptions.
    by rewrite one_variant_iff_one_present.
  - unfold FiatProtocol.SellOptions, FiatProtocol.ExactCryptoAmountOptions,
      FiatProtocol.FiatAmountOptions.
    by rewrite one_variant_iff_one_present.
  - unfold SwapProtocol.SwapOptions, SwapProtocol.SwapBuyOptions,
      SwapProtocol.SwapSellOptions.
    rewrite one_variant_iff_one_present. by rewrite (Nat.add_comm (present _)).
Qed.


(** ** Further properties of the wallet manager *)

Section ManagerRuns.

Context {WalletConfig : Type}.

Implicit Types (w : world WalletConfig) (h : gmap nat entity).

(** The loop body leaves a store that differs at the visited reference
    only. *)
Lemma dispose_if_active_lookup (m : t WalletConfig) h (l0 : nat) :
  ∃ h1, dispose_if_active WalletConfig (VRef l0) (World _ m h) = (Ok (), World _ m h1) ∧
        ∀ l, h1 !! l = if decide (l = l0) then dispose_once <$> h !! l else h !! l.
Proof.
  unfold dispose_if_active. cbn [heap this].
  destruct (h !! l0) as [e|] eqn:He.
  - destruct (isActive e) eqn:Ha.
    + eexists. split; [reflexivity|]. intros l. destruct (decide (l = l0)) as [->|Hne].
      * rewrite lookup_insert_eq, He. cbn [fmap option_fmap option_map].
        unfold dispose_once. by rewrite Ha.
      * by rewrite lookup_insert_ne.
    + exists h. split; [reflexivity|]. intros l. destruct (decide (l = l0)) as [->|Hne]; [|done].
      rewrite He. cbn [fmap option_fmap option_map].
      unfold dispose_once. by rewrite Ha.
  - exists h. split; [reflexivity|]. intros l. destruct (decide (l = l0)) as [->|Hne]; [|done].
    by rewrite He.
Qed.

Lemma dispose_once_idemp (e : entity) : dispose_once (dispose_once e) = dispose_once e.
Proof. unfold dispose_once. destruct (isActive e) eqn:Ha; simpl; by rewrite ?Ha. Qed.

(** The loop over a list of references passes the guard over each listed
    object, however often it is listed. *)
Lemma for_of_dispose_lookup (vs : list value) (m : t WalletConfig) h :
  VUndefined ∉ vs →
  ∃ h', for_of WalletConfig vs (dispose_if_active WalletConfig) (World _ m h)
          = (Ok (), World _ m h') ∧
        ∀ l, h' !! l = if bool_decide (VRef l ∈ vs)
                       then dispose_once <$> h !! l else h !! l.
Proof.
  revert h. induction vs as [|v vs IH]; intros h Hvs.
  - exists h. split; [reflexivity|]. intros l.
    rewrite bool_decide_eq_false_2; [done | apply not_elem_of_nil].
  - apply not_elem_of_cons in Hvs as [Hv Hvs].
    destruct v as [|l0]; [done|].
    destruct (dispose_if_active_lookup m h l0) as (h1 & Hstep & Hh1).
    destruct (IH h1 Hvs) as (h' & Hrest & Hh').
    exists h'. split.
    + cbn [for_of]. rewrite bind_run, Hstep. exact Hrest.
    + intros l. rewrite Hh', Hh1.
      destruct (decide (l = l0)) as [->|Hne].
      * rewrite (bool_decide_eq_true_2 (VRef l0 ∈ VRef l0 :: vs)) by left.
        case_bool_decide; [|done].
        rewrite <- option_fmap_compose. apply option_fmap_ext.
        intros e. apply dispose_once_idemp.
      * apply (f_equal (λ b : bool, if b then dispose_once <$> h !! l else h !! l)).
        apply bool_decide_ext. split.
        -- intros Hin. by right.
        -- intros [Heq|Hin]%elem_of_cons; [congruence | done].
Qed.

(** On a disposed manager every call leaves the world as it is. *)
Lemma perform_disposed (c : Calls.call) (config : WalletConfig) h :
  Calls.perform WalletConfig c
    (World _ (Manager _ (JsObject []) (JsObject []) config) h)
  = World _ (Manager _ (JsObject []) (JsObject []) config) h.
Proof. destruct c; reflexivity. Qed.

(** On a manager that holds maps only [dispose()] changes the world. *)
Lemma perform_live (c : Calls.call) (signers accounts : gmap (list N) value)
    (config : WalletConfig) h :
  Calls.perform WalletConfig c
    (World _ (Manager _ (JsMap signers) (JsMap accounts) config) h)
  = if Calls.is_Dispose c
    then World _ (Manager _ (JsObject []) (JsObject []) config) h
    else World _ (Manager _ (JsMap signers) (JsMap accounts) config) h.
Proof. destruct c; reflexivity. Qed.

Lemma run_disposed (calls : list Calls.call) (config : WalletConfig) h :
  Calls.run WalletConfig calls
    (World _ (Manager _ (JsObject []) (JsObject []) config) h)
  = World _ (Manager _ (JsObject []) (JsObject []) config) h.
Proof.
  induction calls as [|c calls IH]; [reflexivity|].
  unfold Calls.run in *. cbn [foldl]. by rewrite perform_disposed.
Qed.

Lemma run_live (calls : list Calls.call) (signers accounts : gmap (list N) value)
    (config : WalletConfig) h :
  Calls.run WalletConfig calls
    (World _ (Manager _ (JsMap signers) (JsMap accounts) config) h)
  = if existsb Calls.is_Dispose calls
    then World _ (Manager _ (JsObject []) (JsObject []) config) h
    else World _ (Manager _ (JsMap signers) (JsMap accounts) config) h.
Proof.
  induction calls as [|c calls IH]; [reflexivity|].
  unfold Calls.run in *. cbn [foldl existsb]. rewrite perform_live.
  destruct (Calls.is_Dispose c); cbn [orb].
  - apply run_disposed.
  - exact IH.
Qed.

Lemma perform_dummy_id (c : Calls.call) w : Calls.perform_dummy WalletConfig c w = w.
Proof. destruct c; reflexivity. Qed.

Lemma getSigner_world (name : list N) w : (getSigner WalletConfig name w).2 = w.
Proof. unfold getSigner. rewrite bind_run. reflexivity. Qed.

End ManagerRuns.

(** X1: right after [new WalletManager(signer, config)], [getSigner(name)]
    returns the constructor's signer when [name] is ["default"] and
    [undefined] for every other name; it does not throw and changes
    nothing. *)
Theorem fresh_manager_getSigner {WalletConfig : Type}
    (empty_object : WalletConfig) (signer : value) (config : option WalletConfig)
    (h : gmap nat entity) :
  ∃ m, constructor WalletConfig empty_object signer config = Ok m ∧
       ∀ name,
         getSigner _ name (World _ m h)
         = (Ok (if bool_decide (name = lit "default") then signer else VUndefined),
            World _ m h).
Proof.
  eexists. split; [reflexivity|]. intros name.
  unfold getSigner. rewrite bind_run. cbn [read lift this _signers registry_get].
  case_bool_decide as Hname.
  - subst name. by rewrite lookup_insert_eq.
  - rewrite lookup_insert_ne by congruence. by rewrite lookup_empty.
Qed.

(** X2: on a manager whose two registries are maps, whatever they hold,
    [dispose()] returns and calls [dispose()] on nothing: the store of signer
    and account objects is unchanged, so every registered signer that was
    active is still active; the configuration is kept and both registries
    become empty object literals. *)
Theorem dispose_live_touches_nothing {WalletConfig : Type}
    (w : world WalletConfig) (signers accounts : gmap (list N) value) :
  _signers _ (this _ w) = JsMap signers →
  _accounts _ (this _ w) = JsMap accounts →
  ∃ w', dispose WalletConfig w = (Ok (), w') ∧
        heap _ w' = heap _ w ∧
        (∀ name x, signers !! name = Some x →
                   is_active (heap _ w') x = is_active (heap _ w) x) ∧
        _config _ (this _ w') = _config _ (this _ w) ∧
        _signers _ (this _ w') = JsObject [] ∧
        _accounts _ (this _ w') = JsObject [].
Proof.
  intros Hs Ha. eexists. split; [exact (dispose_of_maps w signers accounts Hs Ha)|].
  repeat split.
Qed.

Lemma dispose_live_touches_nothing_witness :
  ∃ w', dispose unit fresh_world = (Ok (), w') ∧
        is_active (heap unit w') (VRef 0) = true.
Proof.
  destruct (dispose_live_touches_nothing fresh_world
              (<[lit "default" := VRef 0]> ∅) ∅ eq_refl eq_refl)
    as (w' & Hd & Hh & _).
  exists w'. split; [exact Hd|]. rewrite Hh. reflexivity.
Defined.

(** X3: once [dispose()] has returned, [getSigner(name)] throws a [TypeError]
    for every name, because the signer registry is then an object literal
    without a [get] method; it never returns a signer again, and it changes
    nothing. *)
Theorem getSigner_after_dispose_TypeError {WalletConfig : Type}
    (w w' : world WalletConfig) (name : list N) :
  dispose WalletConfig w = (Ok (), w') →
  getSigner _ name w'
  = (Throw (TypeError "this._signers.get is not a function"), w').
Proof.
  intros H. destruct (dispose_registries w w' H) as [Hs _].
  unfold getSigner. rewrite bind_run. cbn [read lift]. by rewrite Hs.
Qed.

Lemma getSigner_after_dispose_TypeError_witness :
  dispose unit fresh_world = (Ok (), disposed_world) ∧
  getSigner unit (lit "default") disposed_world
  = (Throw (TypeError "this._signers.get is not a function"), disposed_world).
Proof.
  assert (H : dispose unit fresh_world = (Ok (), disposed_world)).
  { apply (dispose_of_maps (WalletConfig := unit) fresh_world
             (<[lit "default" := VRef 0]> ∅) ∅); reflexivity. }
  split; [exact H|].
  exact (getSigner_after_dispose_TypeError fresh_world disposed_world
           (lit "default") H).
Defined.

(** X4: the abstract manager has two reachable states. Whatever sequence of
    [createSigner], [getSigner], [getAccount], [getAccountByPath],
    [getFeeRates] and [dispose] calls follows the constructor, returning or
    throwing, the world is the freshly constructed one as long as no
    [dispose()] was among them, and afterwards the one with two empty
    registries; the store of signer objects and the configuration never
    change. *)
Theorem abstract_manager_two_states {WalletConfig : Type}
    (empty_object : WalletConfig) (signer : value) (config : option WalletConfig)
    (h : gmap nat entity) :
  ∃ m, constructor WalletConfig empty_object signer config = Ok m ∧
       ∀ calls,
         Calls.run WalletConfig calls (World _ m h)
         = if existsb Calls.is_Dispose calls
           then World _ (Manager _ (JsObject []) (JsObject []) (_config _ m)) h
           else World _ m h.
Proof.
  eexists. split; [reflexivity|]. intros calls. apply run_live.
Qed.

(** X5: when the two registries are object literals whose values are all
    object references, the loops of [dispose()] do run: it returns, empties
    both registries, and passes the guard [if (x.isActive) x.dispose()] over
    every listed object. An object that was active is disposed exactly once,
    also when it is listed under several names; an inactive one and one that
    is not listed are left as they were. *)
Theorem dispose_object_literals {WalletConfig : Type}
    (w : world WalletConfig) (signers accounts : list (list N * value)) :
  _signers _ (this _ w) = JsObject signers →
  _accounts _ (this _ w) = JsObject accounts →
  VUndefined ∉ signers.*2 ++ accounts.*2 →
  ∃ h', dispose WalletConfig w
        = (Ok (), World _ (Manager _ (JsObject []) (JsObject [])
                             (_config _ (this _ w))) h') ∧
        ∀ l, h' !! l = if bool_decide (VRef l ∈ signers.*2 ++ accounts.*2)
                       then dispose_once <$> heap _ w !! l
                       else heap _ w !! l.
Proof.
  destruct w as [[s a c] h]. cbn [this heap _signers _accounts _config].
  intros -> -> Hvs. apply not_elem_of_app in Hvs as [Hs Ha].
  destruct (for_of_dispose_lookup (signers.*2)
              (Manager _ (JsObject signers) (JsObject accounts) c) h Hs)
    as (h1 & Hrun1 & Hh1).
  destruct (for_of_dispose_lookup (accounts.*2)
              (Manager _ (JsObject signers) (JsObject accounts) c) h1 Ha)
    as (h2 & Hrun2 & Hh2).
  exists h2. split.
  - unfold dispose. rewrite bind_run. cbn [read this _signers Object_values].
    change (map snd signers) with (signers.*2).
    rewrite bind_run, Hrun1, bind_run. cbn [read this _accounts Object_values].
    change (map snd accounts) with (accounts.*2).
    rewrite bind_run, Hrun2. reflexivity.
  - intros l. rewrite Hh2, Hh1.
    destruct (bool_decide (VRef l ∈ signers.*2)) eqn:Hin1;
      destruct (bool_decide (VRef l ∈ accounts.*2)) eqn:Hin2;
      [apply bool_decide_eq_true_1 in Hin1 | apply bool_decide_eq_true_1 in Hin1
       | apply bool_decide_eq_false_1 in Hin1 | apply bool_decide_eq_false_1 in Hin1];
      [apply bool_decide_eq_true_1 in Hin2 | apply bool_decide_eq_false_1 in Hin2
       | apply bool_decide_eq_true_1 in Hin2 | apply bool_decide_eq_false_1 in Hin2].
    + rewrite bool_decide_eq_true_2 by (apply elem_of_app; by left).
      rewrite <- option_fmap_compose. apply option_fmap_ext.
      intros e. apply dispose_once_idemp.
    + by rewrite bool_decide_eq_true_2 by (apply elem_of_app; by left).
    + by rewrite bool_decide_eq_true_2 by (apply elem_of_app; by right).
    + rewrite bool_decide_eq_false_2; [done|].
      intros [?|?]%elem_of_app; done.
Qed.

Lemma dispose_object_literals_witness :
  ∃ h', (dispose unit literal_world).1 = Ok () ∧
        heap unit (dispose unit literal_world).2 = h' ∧
        h' !! 0 = Some (Entity false 1) ∧
        h' !! 1 = Some (Entity false 0) ∧
        h' !! 2 = Some (Entity true 0).
Proof.
  destruct (dispose_object_literals literal_world
              [(lit "default", VRef 0); (lit "hot", VRef 0)] [(lit "0", VRef 1)]
              eq_refl eq_refl) as (h' & Hd & Hh').
  { intros Hin. repeat (apply elem_of_cons in Hin as [Hin|Hin]; [discriminate Hin|]).
    by apply elem_of_nil in Hin. }
  exists h'. rewrite Hd. split; [reflexivity|]. split; [reflexivity|].
  rewrite !Hh'. repeat split; vm_compute; reflexivity.
Defined.

(** X7: the subclass of the test suite has one reachable state. After
    [new DummyWalletManager(signer)] and any sequence of calls, [dispose()]
    included, the world is the freshly constructed one, so
    [getSigner("default")] still returns the constructor's signer;
    [createSigner] keeps failing with [NotImplemented]. *)
Theorem dummy_manager_one_state {WalletConfig : Type}
    (empty_object : WalletConfig) (signer : value) (config : option WalletConfig)
    (h : gmap nat entity) (calls : list (Calls.call)) :
  ∃ m, constructor WalletConfig empty_object signer config = Ok m ∧
       Calls.run_dummy WalletConfig calls (World _ m h) = World _ m h ∧
       getSigner _ (lit "default") (Calls.run_dummy WalletConfig calls (World _ m h))
       = (Ok signer, World _ m h) ∧
       ∀ name x,
         fails_with
           (createSigner _ name x (Calls.run_dummy WalletConfig calls (World _ m h))).1
           NotImplemented.
Proof.
  eexists. split; [reflexivity|].
  match goal with |- ?R = ?W ∧ _ => assert (Hrun : R = W) end.
  { induction calls as [|c calls IH] using rev_ind; [reflexivity|].
    unfold Calls.run_dummy in *. rewrite foldl_app, IH. cbn [foldl].
    apply perform_dummy_id. }
  rewrite Hrun. split; [reflexivity|]. split.
  - unfold getSigner. rewrite bind_run. cbn [read lift this _signers registry_get].
    by rewrite lookup_insert_eq.
  - intros name x. apply fails_with_Throw. reflexivity.
Qed.

(** ** Further properties of the seed-phrase utilities *)

Section Bip39Words.
Import Bip39.

Lemma split_nonempty (sep : N) (str : list N) : split sep str ≠ [].
Proof.
  destruct str as [|c rest]; simpl; [done|].
  destruct (decide (c = sep)); [done|]. by destruct (split sep rest).
Qed.

(** Joining the pieces of a split gives the string back. *)
Lemma join_split (sep : N) (str : list N) : join [sep] (split sep str) = str.
Proof.
  induction str as [|c rest IH]; [reflexivity|]. simpl split.
  pose proof (split_nonempty sep rest) as Hne.
  destruct (decide (c = sep)) as [->|Hc].
  - destruct (split sep rest) as [|word words]; [done|].
    change (join [sep] ([] :: word :: words))
      with (sep :: join [sep] (word :: words)).
    by rewrite IH.
  - destruct (split sep rest) as [|word words]; [done|].
    destruct words as [|word' words]; simpl in *; by rewrite IH.
Qed.

Lemma split_app (sep : N) (a b : list N) :
  split sep (a ++ sep :: b) = split sep a ++ split sep b.
Proof.
  induction a as [|c a IH]; simpl.
  - by rewrite decide_True.
  - destruct (decide (c = sep)); [by rewrite IH|].
    rewrite IH. pose proof (split_nonempty sep a) as Hne.
    by destruct (split sep a).
Qed.

(** A character other than the separator sits in one of the pieces. *)
Lemma elem_of_split (sep c : N) (str : list N) :
  c ∈ str → c ≠ sep → ∃ word, word ∈ split sep str ∧ c ∈ word.
Proof.
  intros Hin Hc. induction str as [|d rest IH]; [by apply elem_of_nil in Hin|].
  simpl split. pose proof (split_nonempty sep rest) as Hne.
  apply elem_of_cons in Hin as [->|Hin].
  - rewrite decide_False by done.
    destruct (split sep rest) as [|word words]; [done|].
    exists (d :: word). split; left.
  - destruct (IH Hin) as (word & Hw & Hcw).
    destruct (decide (d = sep)).
    + exists word. split; [by right | done].
    + destruct (split sep rest) as [|word' words]; [done|].
      apply elem_of_cons in Hw as [->|Hw].
      * exists (d :: word'). split; [left | by right].
      * exists word. split; [by right | done].
Qed.

Lemma Forall_concat_inv {P : N → Prop} (l : list (list N)) :
  Forall P (concat l) → Forall (Forall P) l.
Proof.
  induction l as [|x l IH]; simpl; [constructor|].
  intros [Hx Hl]%Forall_app. constructor; auto.
Qed.

Lemma hex_digit_inj (x y : N) :
  (x < 16)%N → (y < 16)%N → hex_digit x = hex_digit y → x = y.
Proof.
  unfold hex_digit. intros Hx Hy.
  destruct (N.ltb_spec x 10), (N.ltb_spec y 10); lia.
Qed.

(** The hexadecimal writing of a buffer determines the buffer. *)
Lemma toString_hex_inj (a b : list byte) : toString_hex a = toString_hex b → a = b.
Proof.
  revert b. induction a as [|x a IH]; intros [|y b]; simpl; try done.
  unfold toString_hex. simpl. intros [= Hhi Hlo Hrest].
  pose proof (Byte.to_N_bounded x). pose proof (Byte.to_N_bounded y).
  apply hex_digit_inj in Hhi; [|apply N.Div0.div_lt_upper_bound; lia..].
  apply hex_digit_inj in Hlo; [|apply N.mod_lt; lia..].
  assert (Hxy : Byte.to_N x = Byte.to_N y).
  { rewrite (N.div_mod (Byte.to_N x) 16), (N.div_mod (Byte.to_N y) 16) by lia.
    by rewrite Hhi, Hlo. }
  f_equal.
  - apply (f_equal Byte.of_N) in Hxy. rewrite !Byte.of_to_N in Hxy. congruence.
  - by apply IH.
Qed.

End Bip39Words.

Section Bip39Converse.
Import Bip39.

Variable wordlist : list (list N).
Variable sha256 : list byte → list byte.
Variable NFKD : list N → list N.

Hypothesis wordlist_length : length wordlist = 2048.
Hypothesis wordlist_lowercase :
  Forall (Forall (λ c, 97 ≤ c ≤ 122)%N) wordlist.

(** Writing the bytes read from eight-digit pieces gives the pieces back. *)
Lemma bytesToBinary_Buffer_from (l : list (list N)) :
  Forall (λ piece, length piece = 8) l → Forall (Forall is_bit) l →
  bytesToBinary (map Byte.to_N (Buffer_from (map binaryToByte l))) = concat l.
Proof.
  intros Hlen Hbits. unfold bytesToBinary. f_equal.
  unfold Buffer_from. rewrite !map_map.
  rewrite <- (map_id l) at 2. apply map_ext_Forall.
  apply Forall_forall. intros piece Hin.
  pose proof (proj1 (Forall_forall _ _) Hlen _ Hin) as Hl.
  pose proof (proj1 (Forall_forall _ _) Hbits _ Hin) as Hb.
  pose proof (parse_digits2_bound piece Hb) as Hv. rewrite Hl in Hv.
  change (2 ^ N.of_nat 8)%N with 256%N in Hv.
  unfold binaryToByte. rewrite parseInt2_bits; [|done|by intros ->].
  cbn [default from_option]. unfold id. rewrite N.mod_small by done.
  pose proof (Byte.to_of_N_option_map (parse_digits2 0 piece)) as Hof.
  destruct (N.leb_spec (parse_digits2 0 piece) 255) as [_|?]; [|lia].
  destruct (Byte.of_N (parse_digits2 0 piece)) as [b|]; [|done].
  injection Hof as Hof. cbn [default from_option]. unfold id. rewrite Hof.
  apply lpad_toString2_parse; [done | exact Hl | lia].
Qed.

(** A phrase that decodes is, once normalised, the phrase written for the
    entropy it decodes to. *)
Lemma mnemonicToEntropy_inv (mnemonic hex : list N) :
  mnemonicToEntropy wordlist sha256 NFKD mnemonic = Ok hex →
  ∃ entropy q,
    hex = toString_hex entropy ∧ length entropy = 4 * q ∧ 4 ≤ q ≤ 8 ∧
    entropyToMnemonic wordlist sha256 entropy = Ok (NFKD mnemonic).
Proof.
  unfold mnemonicToEntropy, normalize. cbv zeta.
  pose proof (join_split 32%N (NFKD mnemonic)) as Hjoin.
  set (words := split 32%N (NFKD mnemonic)) in *.
  destruct (Nat.eqb_spec (length words mod 3) 0) as [Hmod|]; [|done].
  change (negb true) with false. cbv iota.
  destruct (map_throwing _ words) as [chunks|e] eqn:Hmap; [|done].
  rewrite result_bind_Ok. apply map_throwing_inv in Hmap.
  assert (Hchunks : Forall (λ chunk, length chunk = 11) chunks
                    ∧ Forall (Forall is_bit) chunks
                    ∧ map (word_at wordlist) chunks = words).
  { clear -Hmap wordlist_length.
    induction Hmap as [|word chunk words chunks Hw _ (IHl & IHb & IHw)];
      [by repeat split|].
    destruct (indexOf wordlist word) as [index|] eqn:Hi; [|done].
    injection Hw as <-. apply indexOf_Some in Hi.
    pose proof (lookup_lt_Some _ _ _ Hi) as Hlt.
    destruct (lpad_toString2 (N.of_nat index) 11) as (Hl & Hb & Hv); [|lia|].
    { change (2 ^ N.of_nat 11)%N with 2048%N. lia. }
    split; [by constructor|]. split; [by constructor|].
    cbn [map]. f_equal; [|done].
    unfold word_at, binaryToByte. rewrite parseInt2_bits; [|done|].
    - by rewrite Hv, Nat2N.id, Hi.
    - intros Hnil. by rewrite Hnil in Hl. }
  destruct Hchunks as (Hall & Hbits & Hwords).
  pose proof (Forall2_length _ _ _ Hmap) as Hlen.
  pose proof (length_concat_pieces wordlist wordlist_length 11 chunks Hall)
    as Hcat.
  pose proof (Nat.div_mod_eq (length words) 3) as Hdiv.
  set (t := length words / 3) in *.
  assert (Hn : length words = 3 * t) by lia.
  rewrite <- Hlen, Hn in Hcat.
  rewrite Hcat. replace (11 * (3 * t)) with (t * 33) by lia.
  rewrite Nat.div_mul by done.
  destruct (concat_of_pieces 8 (4 * t) (take (t * 32) (concat chunks)))
    as (l & Hc & Hl & Hl8).
  { rewrite length_take, Hcat. lia. }
  assert (Hlbits : Forall (Forall is_bit) l).
  { apply Forall_concat_inv. rewrite Hc. by apply Forall_take, Forall_concat. }
  rewrite <- Hc. destruct l as [|piece l]; [done|].
  rewrite match_pieces_concat; [|lia|done|done].
  rewrite length_map, Hl.
  destruct (Nat.ltb_spec (4 * t) 16) as [?|Hlo]; [done|].
  destruct (Nat.ltb_spec 32 (4 * t)) as [?|Hhi]; [done|].
  rewrite (Nat.mul_comm 4 t), Nat.Div0.mod_mul.
  change (negb (0 =? 0)) with false. cbv iota.
  case_bool_decide as Hck; [|done]. cbn [negb]. intros [= <-].
  set (entropy := Buffer_from (map binaryToByte (piece :: l))) in *.
  assert (Hel : length entropy = 4 * t).
  { unfold entropy, Buffer_from. by rewrite !length_map. }
  exists entropy, t. split; [done|]. split; [done|]. split; [lia|].
  unfold entropyToMnemonic. cbv zeta. rewrite Hel.
  destruct (Nat.ltb_spec (4 * t) 16) as [?|_]; [lia|].
  destruct (Nat.ltb_spec 32 (4 * t)) as [?|_]; [lia|].
  rewrite (Nat.mul_comm 4 t), Nat.Div0.mod_mul.
  change (negb (0 =? 0)) with false. cbv iota.
  unfold entropy at 1. rewrite bytesToBinary_Buffer_from by done.
  rewrite Hck, Hc, take_drop.
  rewrite match_pieces_concat; [|lia| |done].
  2:{ intros ->. simpl in Hlen. lia. }
  rewrite Hwords.
  rewrite bool_decide_eq_false_2.
  - change (lit " ") with [32%N]. by rewrite Hjoin.
  - intros H0. apply list_elem_of_lookup_2 in H0.
    pose proof (proj1 (Forall_forall _ _) wordlist_lowercase _ H0) as Hlow.
    apply Forall_cons in Hlow as [Hcz _]. cbv beta in Hcz. lia.
Qed.

(** A phrase whose normal form has a character that is neither a lower-case
    letter nor a space is not well formed. *)
Lemma well_formed_characters (mnemonic : list N) (c : N) :
  c ∈ NFKD mnemonic → c ≠ 32%N → ¬ (97 ≤ c ≤ 122)%N →
  well_formed wordlist NFKD mnemonic = false.
Proof.
  intros Hin Hsp Hc. unfold well_formed, normalize. cbv zeta.
  destruct (elem_of_split 32%N c (NFKD mnemonic) Hin Hsp) as (word & Hw & Hcw).
  apply andb_false_intro2. apply not_true_is_false. intros Hall.
  rewrite forallb_forall in Hall.
  specialize (Hall word (proj1 (list_elem_of_In _ _) Hw)).
  apply bool_decide_eq_true_1 in Hall.
  pose proof (proj1 (Forall_forall _ _) wordlist_lowercase _ Hall) as Hlow.
  apply Hc. exact (proj1 (Forall_forall _ _) Hlow _ Hcw).
Qed.

End Bip39Converse.

Section SeedPhraseFacts.
Import Bip39.

Variable wordlist : list (list N).
Variable sha256 : list byte → list byte.
Variable NFKD : list N → list N.

Hypothesis wordlist_length : length wordlist = 2048.
Hypothesis wordlist_NoDup : NoDup wordlist.
Hypothesis wordlist_lowercase :
  Forall (Forall (λ c, 97 ≤ c ≤ 122)%N) wordlist.
Hypothesis NFKD_ascii : ∀ str, Forall (λ c, c < 128)%N str → NFKD str = str.
Hypothesis sha256_length : ∀ message, length (sha256 message) = 32.

(** A string whose words all come from the word list is plain ASCII. *)
Lemma words_ascii (str : list N) :
  Forall (λ word, word ∈ wordlist) (split 32%N str) →
  Forall (λ c, c < 128)%N str.
Proof using wordlist_lowercase.
  intros Hin. rewrite <- (join_split 32%N str). apply Forall_join.
  - by apply Forall_singleton.
  - eapply Forall_impl; [exact Hin|]. intros word Hw.
    pose proof (proj1 (Forall_forall _ _) wordlist_lowercase _ Hw) as Hlow.
    eapply Forall_impl; [exact Hlow|]. intros c Hc. cbv beta in Hc.
    clear -Hc. lia.
Qed.

(** The phrase written for an entropy of a valid length: its words, its
    normal form, and what it decodes to. *)
Lemma entropyToMnemonic_decodes (entropy : list byte) (q : nat) :
  length entropy = 4 * q → 4 ≤ q ≤ 8 →
  ∃ phrase,
    entropyToMnemonic wordlist sha256 entropy = Ok phrase ∧
    length (split 32%N phrase) = 3 * q ∧
    NFKD phrase = phrase ∧
    mnemonicToEntropy wordlist sha256 NFKD phrase = Ok (toString_hex entropy).
Proof.
  intros Hlen Hq.
  destruct (entropy_chunks wordlist sha256 wordlist_length sha256_length
              entropy q Hlen Hq) as (chunks & Hc & Hl & Hall & Hbits).
  destruct (mnemonicToEntropy_words wordlist sha256 NFKD wordlist_length
              wordlist_NoDup wordlist_lowercase NFKD_ascii sha256_length
              entropy q chunks Hlen Hq Hc Hl Hall Hbits) as [Hsplit Hdecode].
  exists (join (lit " ") (map (word_at wordlist) chunks)).
  split.
  { by apply (entropyToMnemonic_words wordlist sha256 wordlist_length
                wordlist_lowercase entropy q). }
  split; [by rewrite Hsplit, length_map|]. split; [|exact Hdecode].
  apply NFKD_ascii, words_ascii. rewrite Hsplit.
  apply Forall_map, Forall_forall. intros chunk Hin.
  apply (word_at_chunk wordlist wordlist_length wordlist_NoDup).
  - by apply (proj1 (Forall_forall _ _) Hbits).
  - by apply (proj1 (Forall_forall _ _) Hall).
Qed.

(** Two entropies of valid lengths that are written as the same phrase are
    the same. *)
Lemma entropyToMnemonic_inj (e1 e2 : list byte) (q1 q2 : nat) :
  length e1 = 4 * q1 → 4 ≤ q1 ≤ 8 → length e2 = 4 * q2 → 4 ≤ q2 ≤ 8 →
  entropyToMnemonic wordlist sha256 e1 = entropyToMnemonic wordlist sha256 e2 →
  e1 = e2.
Proof.
  intros Hl1 Hq1 Hl2 Hq2 Heq.
  destruct (entropyToMnemonic_decodes e1 q1 Hl1 Hq1) as (p1 & Hp1 & _ & _ & Hd1).
  destruct (entropyToMnemonic_decodes e2 q2 Hl2 Hq2) as (p2 & Hp2 & _ & _ & Hd2).
  rewrite Hp1, Hp2 in Heq. injection Heq as ->.
  rewrite Hd1 in Hd2. injection Hd2 as Hhex. by apply toString_hex_inj.
Qed.

(** Validation looks at the normal form of a phrase only. *)
Lemma validateMnemonic_normal_form (a b : list N) :
  NFKD a = NFKD b →
  validateMnemonic wordlist sha256 NFKD a = validateMnemonic wordlist sha256 NFKD b.
Proof.
  intros Heq. unfold validateMnemonic, mnemonicToEntropy, normalize.
  by rewrite Heq.
Qed.

End SeedPhraseFacts.

(** X8: with a word list of 2048 distinct lower-case words, a 32-byte hash
    and a normalisation that leaves ASCII alone, [isValidSeedPhrase] returns
    true for exactly the phrases whose normal form is the phrase that
    [entropyToMnemonic] writes for some entropy of 16, 20, 24, 28 or 32
    bytes: nothing else is accepted. *)
Theorem valid_seed_phrase_iff_generated
    (wordlist : list (list N)) (sha256 : list byte → list byte)
    (NFKD : list N → list N) (seedPhrase : list N) :
  length wordlist = 2048 →
  NoDup wordlist →
  Forall (Forall (λ c, 97 ≤ c ≤ 122)%N) wordlist →
  (∀ str, Forall (λ c, c < 128)%N str → NFKD str = str) →
  (∀ message, length (sha256 message) = 32) →
  WalletManager.isValidSeedPhrase wordlist sha256 NFKD seedPhrase = Ok true ↔
  ∃ entropy q,
    length entropy = 4 * q ∧ 4 ≤ q ≤ 8 ∧
    Bip39.entropyToMnemonic wordlist sha256 entropy = Ok (NFKD seedPhrase).
Proof.
  intros Hlen Hnd Hlow Hnfkd Hsha. unfold WalletManager.isValidSeedPhrase. split.
  - intros [= Hv]. unfold Bip39.validateMnemonic in Hv.
    destruct (Bip39.mnemonicToEntropy wordlist sha256 NFKD seedPhrase)
      as [hex|e] eqn:Hd; [|done].
    destruct (mnemonicToEntropy_inv wordlist sha256 NFKD Hlen Hlow _ _ Hd)
      as (entropy & q & _ & Hl & Hq & Hgen).
    by exists entropy, q.
  - intros (entropy & q & Hl & Hq & Hgen).
    destruct (entropyToMnemonic_decodes wordlist sha256 NFKD Hlen Hnd Hlow
                Hnfkd Hsha entropy q Hl Hq) as (phrase & Hp & _ & Hn & Hd).
    rewrite Hgen in Hp. injection Hp as <-.
    rewrite (validateMnemonic_normal_form wordlist sha256 NFKD seedPhrase
               (NFKD seedPhrase)) by done.
    unfold Bip39.validateMnemonic. by rewrite Hd.
Qed.

Lemma valid_seed_phrase_iff_generated_witness :
  WalletManager.isValidSeedPhrase example_wordlist SHA256.sha256 example_NFKD
    example_phrase = Ok true ↔
  ∃ entropy q,
    length entropy = 4 * q ∧ 4 ≤ q ≤ 8 ∧
    Bip39.entropyToMnemonic example_wordlist SHA256.sha256 entropy
    = Ok (example_NFKD example_phrase).
Proof.
  apply (valid_seed_phrase_iff_generated example_wordlist SHA256.sha256
           example_NFKD example_phrase).
  - reflexivity.
  - exact example_wordlist_NoDup.
  - exact example_wordlist_lowercase.
  - intros str _. reflexivity.
  - exact length_sha256.
Defined.

(** X9: under the conditions of X8 (the normalisation plays no part), random
    sources that return different sixteen bytes make [getRandomSeedPhrase()]
    return different results: the phrase carries all 128 bits of entropy. *)
Theorem seed_phrase_determines_entropy
    (wordlist : list (list N)) (sha256 : list byte → list byte)
    (randomBytes1 randomBytes2 : nat → list byte) :
  length wordlist = 2048 →
  NoDup wordlist →
  Forall (Forall (λ c, 97 ≤ c ≤ 122)%N) wordlist →
  (∀ message, length (sha256 message) = 32) →
  length (randomBytes1 16) = 16 →
  length (randomBytes2 16) = 16 →
  randomBytes1 16 ≠ randomBytes2 16 →
  WalletManager.getRandomSeedPhrase wordlist sha256 randomBytes1
  ≠ WalletManager.getRandomSeedPhrase wordlist sha256 randomBytes2.
Proof.
  intros Hlen Hnd Hlow Hsha H1 H2 Hne Heq. apply Hne.
  apply (entropyToMnemonic_inj wordlist sha256 (λ str, str) Hlen Hnd Hlow
           (λ str _, eq_refl) Hsha _ _ 4 4 H1 ltac:(lia) H2 ltac:(lia)).
  exact Heq.
Qed.

Lemma seed_phrase_determines_entropy_witness :
  WalletManager.getRandomSeedPhrase example_wordlist SHA256.sha256
    (λ size, replicate size "000"%byte)
  ≠ WalletManager.getRandomSeedPhrase example_wordlist SHA256.sha256
      (λ size, replicate size "255"%byte).
Proof.
  apply (seed_phrase_determines_entropy example_wordlist SHA256.sha256
           (λ size, replicate size "000"%byte)
           (λ size, replicate size "255"%byte)).
  - reflexivity.
  - exact example_wordlist_NoDup.
  - exact example_wordlist_lowercase.
  - exact length_sha256.
  - reflexivity.
  - reflexivity.
  - discriminate.
Defined.

(** X10: with a word list of 2048 lower-case words, [isValidSeedPhrase]
    returns false for every phrase whose normal form has a character that is
    neither a lower-case letter nor a space: an upper-case letter, a digit, a
    tab or a line end anywhere in the phrase makes it invalid. *)
Theorem seed_phrase_characters
    (wordlist : list (list N)) (sha256 : list byte → list byte)
    (NFKD : list N → list N) (seedPhrase : list N) (c : N) :
  length wordlist = 2048 →
  Forall (Forall (λ c, 97 ≤ c ≤ 122)%N) wordlist →
  c ∈ NFKD seedPhrase → c ≠ 32%N → ¬ (97 ≤ c ≤ 122)%N →
  WalletManager.isValidSeedPhrase wordlist sha256 NFKD seedPhrase = Ok false.
Proof.
  intros Hlen Hlow Hin Hsp Hc. unfold WalletManager.isValidSeedPhrase.
  rewrite (validateMnemonic_malformed wordlist sha256 NFKD Hlen); [done|].
  by apply (well_formed_characters wordlist NFKD Hlow seedPhrase c).
Qed.

Lemma seed_phrase_characters_witness :
  WalletManager.isValidSeedPhrase example_wordlist SHA256.sha256 example_NFKD
    (example_phrase ++ [10%N]) = Ok false.
Proof.
  apply (seed_phrase_characters example_wordlist SHA256.sha256 example_NFKD
           (example_phrase ++ [10%N]) 10%N).
  - reflexivity.
  - exact example_wordlist_lowercase.
  - unfold example_NFKD. apply elem_of_app. right. left.
  - discriminate.
  - intros [H _]. by apply H.
Defined.

(** X11: under the conditions of X8, a phrase that [getRandomSeedPhrase()]
    returned is no longer accepted once a space is put before it or after
    it: [isValidSeedPhrase] does not trim. *)
Theorem padded_seed_phrase_rejected
    (wordlist : list (list N)) (sha256 : list byte → list byte)
    (NFKD : list N → list N) (randomBytes : nat → list byte) (phrase : list N) :
  length wordlist = 2048 →
  NoDup wordlist →
  Forall (Forall (λ c, 97 ≤ c ≤ 122)%N) wordlist →
  (∀ str, Forall (λ c, c < 128)%N str → NFKD str = str) →
  (∀ message, length (sha256 message) = 32) →
  length (randomBytes 16) = 16 →
  WalletManager.getRandomSeedPhrase wordlist sha256 randomBytes = Ok phrase →
  WalletManager.isValidSeedPhrase wordlist sha256 NFKD (phrase ++ lit " ")
    = Ok false ∧
  WalletManager.isValidSeedPhrase wordlist sha256 NFKD (lit " " ++ phrase)
    = Ok false.
Proof.
  intros Hlen Hnd Hlow Hnfkd Hsha Hrng Hgen.
  destruct (validateMnemonic_entropyToMnemonic wordlist sha256 NFKD
              Hlen Hnd Hlow Hnfkd Hsha (randomBytes 16) 4 Hrng ltac:(lia))
    as (phrase' & Hgen' & Hwords & Hin & _).
  change (WalletManager.getRandomSeedPhrase wordlist sha256 randomBytes)
    with (Bip39.entropyToMnemonic wordlist sha256 (randomBytes 16)) in Hgen.
  rewrite Hgen in Hgen'. injection Hgen' as <-.
  pose proof (words_ascii wordlist Hlow phrase Hin) as Hascii.
  unfold WalletManager.isValidSeedPhrase.
  split; (rewrite (validateMnemonic_malformed wordlist sha256 NFKD Hlen); [done|]);
    unfold Bip39.well_formed, Bip39.normalize; cbv zeta.
  - rewrite Hnfkd by (apply Forall_app; split; [done | by apply Forall_singleton]).
    change (lit " ") with [32%N].
    rewrite (split_app 32%N phrase []), length_app, Hwords. reflexivity.
  - rewrite Hnfkd by (apply Forall_app; split; [by apply Forall_singleton | done]).
    change (lit " " ++ phrase) with (32%N :: phrase).
    cbn [Bip39.split]. rewrite decide_True by done.
    cbn [length]. rewrite Hwords. reflexivity.
Qed.

Lemma padded_seed_phrase_rejected_witness :
  ∃ phrase,
    WalletManager.getRandomSeedPhrase example_wordlist SHA256.sha256
      (λ size, replicate size "000"%byte) = Ok phrase ∧
    WalletManager.isValidSeedPhrase example_wordlist SHA256.sha256 example_NFKD
      (phrase ++ lit " ") = Ok false.
Proof.
  exists example_phrase.
  assert (Hgen : WalletManager.getRandomSeedPhrase example_wordlist SHA256.sha256
                   (λ size, replicate size "000"%byte) = Ok example_phrase).
  { vm_compute. reflexivity. }
  split; [exact Hgen|].
  apply (padded_seed_phrase_rejected example_wordlist SHA256.sha256 example_NFKD
           (λ size, replicate size "000"%byte) example_phrase).
  - reflexivity.
  - exact example_wordlist_NoDup.
  - exact example_wordlist_lowercase.
  - intros str _. reflexivity.
  - exact length_sha256.
  - reflexivity.
  - exact Hgen.
Defined.
